(** * MosaicMaster: browser helpers and the live-stream core

    A shallow embedding of the JavaScript helpers of the video-editor pages
    (time formatting, the fetch interceptor, the progress WebSocket client)
    and of the stream-session core that the design document describes.

    JavaScript strings are sequences of UTF-16 code units; they are modelled
    as [list N].  JavaScript numbers are modelled on their integer fragment:
    a [number] is either [NaN] or an exact integer.  All the arithmetic the
    helpers perform on whole seconds stays inside that fragment. *)

From Stdlib Require Import ZArith NArith Lia List Ascii String.
From stdpp Require Import base option list gmap strings.
From Equations Require Import Equations.

Local Open Scope N_scope.

(** ** JavaScript strings *)

Module JS.

Abbreviation jsstring := (list N).

(** A string literal of the source, as code units. *)
Definition lit (s : string) : jsstring :=
  List.map N_of_ascii (list_ascii_of_string s).

(** [String.prototype.startsWith(p)] *)
Fixpoint startsWith (p s : jsstring) : bool :=
  match p, s with
  | [], _ => true
  | _ :: _, [] => false
  | a :: p', b :: s' => (a =? b) && startsWith p' s'
  end.

(** [String.prototype.includes(p)] *)
Fixpoint includes (p s : jsstring) : bool :=
  startsWith p s ||
  match s with
  | [] => false
  | _ :: s' => includes p s'
  end.

(** [String.prototype.split(sep)] for a one-unit separator: the pieces
    between the separators, always at least one piece. *)
Fixpoint split (sep : N) (s : jsstring) : list jsstring :=
  match s with
  | [] => [[]]
  | c :: s' =>
      if c =? sep then [] :: split sep s'
      else match split sep s' with
           | [] => [[c]]
           | p :: ps => (c :: p) :: ps
           end
  end.

(** [String.prototype.padStart(n, fill)] for a one-unit [fill]. *)
Definition padStart (n : nat) (fill : N) (s : jsstring) : jsstring :=
  repeat fill (n - length s) ++ s.

(** LineTerminator code units: LF, CR, LS, PS.  The regular-expression
    atom [.] (without the [s] flag) matches every unit but these. *)
Definition isLineTerminator (c : N) : bool :=
  (c =? 10) || (c =? 13) || (c =? 8232) || (c =? 8233).

(** WhiteSpace and LineTerminator units, as skipped by [parseInt]. *)
Definition isStrWhiteSpaceChar (c : N) : bool :=
  (c =? 9) || (c =? 11) || (c =? 12) || (c =? 32) || (c =? 160) ||
  (c =? 65279) || (c =? 5760) || ((8192 <=? c) && (c <=? 8202)) ||
  (c =? 8239) || (c =? 8287) || (c =? 12288) || isLineTerminator c.

Definition isDigit (c : N) : bool := (48 <=? c) && (c <=? 57).

(** *** Numbers: the integer fragment *)

Inductive number : Type :=
| NaN
| Int (z : Z).

Definition num_add (a b : number) : number :=
  match a, b with
  | Int x, Int y => Int (x + y)
  | _, _ => NaN
  end.

Definition num_mul (a b : number) : number :=
  match a, b with
  | Int x, Int y => Int (x * y)
  | _, _ => NaN
  end.

(** [a || 0] on numbers: [NaN] and [0] are falsy. *)
Definition num_or_zero (a : number) : number :=
  match a with
  | NaN => Int 0
  | Int z => Int z
  end.

(** Decimal digits of a natural number, most significant first. *)
Equations? digits (n : N) : jsstring by wf (N.to_nat n) lt :=
  digits n with decide (n < 10) => {
    | left Hlt => [48 + n];
    | right H => digits (n / 10) ++ [48 + n mod 10] }.
Proof.
  assert (n / 10 < n) by (apply N.div_lt; lia). lia.
Qed.

(** [Number.prototype.toString()] on the integer fragment. *)
Definition toString (x : number) : jsstring :=
  match x with
  | NaN => lit "NaN"
  | Int z => if (z <? 0)%Z then 45 :: digits (Z.abs_N z) else digits (Z.abs_N z)
  end.

(** The longest prefix of decimal digits, and its value. *)
Fixpoint takeDigits (s : jsstring) : jsstring :=
  match s with
  | c :: s' => if isDigit c then c :: takeDigits s' else []
  | [] => []
  end.

Definition digitsValue (s : jsstring) : N :=
  fold_left (fun acc c => 10 * acc + (c - 48)) s 0.

Fixpoint trimStart (s : jsstring) : jsstring :=
  match s with
  | c :: s' => if isStrWhiteSpaceChar c then trimStart s' else s
  | [] => []
  end.

(** [parseInt(s, 10)]: skip leading white space, read an optional sign,
    then the longest run of digits; [NaN] when there is no digit. *)
Definition parseInt10 (s : jsstring) : number :=
  let t := trimStart s in
  let neg := startsWith [45] t in
  let body := if startsWith [45] t || startsWith [43] t then tail t else t in
  let ds := takeDigits body in
  match ds with
  | [] => NaN
  | _ :: _ =>
      if neg then Int (- Z.of_N (digitsValue ds)) else Int (Z.of_N (digitsValue ds))
  end.

End JS.

(** ** Time codes ([HH:MM:SS]) *)

(** Number primitives used by the time helpers, on the integer fragment. *)
Module Math.
Import JS.

(** [Math.max(0, x)]; [NaN] is contagious. *)
Definition max0 (x : number) : number :=
  match x with
  | NaN => NaN
  | Int z => Int (Z.max 0 z)
  end.

(** [Math.floor(x / d)] for a positive integer constant [d]. *)
Definition floor_div (x : number) (d : Z) : number :=
  match x with
  | NaN => NaN
  | Int z => Int (z / d)
  end.

(** [x % d]: the remainder takes the sign of the dividend. *)
Definition rem (x : number) (d : Z) : number :=
  match x with
  | NaN => NaN
  | Int z => Int (Z.rem z d)
  end.

(** [Math.floor(x)]: the identity on the integer fragment. *)
Definition floor (x : number) : number := x.

Definition isNaN (x : number) : bool :=
  match x with
  | NaN => true
  | Int _ => false
  end.

End Math.

(** The template literal shared by every [formatTime]:
    [`${hrs.toString().padStart(2, '0')}:${mins...}:${secs...}`]. *)
Definition hhmmss (hrs mins secs : JS.number) : JS.jsstring :=
  JS.padStart 2 48 (JS.toString hrs) ++ [58] ++
  JS.padStart 2 48 (JS.toString mins) ++ [58] ++
  JS.padStart 2 48 (JS.toString secs).

(** [static/js/videoeditor/core/utils.js], [VideoEditorUtils]. *)
Module VideoEditorUtils.
Import JS.

Definition formatTime (seconds : number) : jsstring :=
  if Math.isNaN seconds then lit "00:00:00"
  else
    let seconds := Math.max0 seconds in
    let hrs := Math.floor_div seconds 3600 in
    let mins := Math.floor_div (Math.rem seconds 3600) 60 in
    let secs := Math.floor (Math.rem seconds 60) in
    hhmmss hrs mins secs.

Definition parseTime (timeStr : jsstring) : number :=
  match timeStr with
  | [] => Int 0
  | _ =>
      let parts := List.map parseInt10 (split 58 timeStr) in
      match parts with
      | [p0; p1; p2] =>
          num_add (num_add (num_mul p0 (Int 3600)) (num_mul p1 (Int 60))) p2
      | [p0; p1] => num_add (num_mul p0 (Int 60)) p1
      | p0 :: _ => num_or_zero p0
      | [] => Int 0
      end
  end.

End VideoEditorUtils.

(** [TimerModule] (timer module of the editor): the two helpers have the
    same text as in [VideoEditorUtils]. *)
Module TimerModule.
Import JS.

Definition formatTime (seconds : number) : jsstring :=
  if Math.isNaN seconds then lit "00:00:00"
  else
    let seconds := Math.max0 seconds in
    let hrs := Math.floor_div seconds 3600 in
    let mins := Math.floor_div (Math.rem seconds 3600) 60 in
    let secs := Math.floor (Math.rem seconds 60) in
    hhmmss hrs mins secs.

Definition parseTime (timeStr : jsstring) : number :=
  match timeStr with
  | [] => Int 0
  | _ =>
      let parts := List.map parseInt10 (split 58 timeStr) in
      match parts with
      | [p0; p1; p2] =>
          num_add (num_add (num_mul p0 (Int 3600)) (num_mul p1 (Int 60))) p2
      | [p0; p1] => num_add (num_mul p0 (Int 60)) p1
      | p0 :: _ => num_or_zero p0
      | [] => Int 0
      end
  end.

End TimerModule.

(** [VideoEditorCore] (core module of the editor): no [NaN] guard, no
    clamping, no empty-string guard. *)
Module VideoEditorCore.
Import JS.

Definition formatTime (seconds : number) : jsstring :=
  let hrs := Math.floor_div seconds 3600 in
  let mins := Math.floor_div (Math.rem seconds 3600) 60 in
  let secs := Math.floor (Math.rem seconds 60) in
  hhmmss hrs mins secs.

Definition parseTime (timeStr : jsstring) : number :=
  let parts := List.map parseInt10 (split 58 timeStr) in
  match parts with
  | [p0; p1; p2] =>
      num_add (num_add (num_mul p0 (Int 3600)) (num_mul p1 (Int 60))) p2
  | [p0; p1] => num_add (num_mul p0 (Int 60)) p1
  | p0 :: _ => num_or_zero p0
  | [] => Int 0
  end.

End VideoEditorCore.


(** ** The universal fetch interceptor ([/static/fetch-interceptor.js]) *)

Module FetchInterceptor.
Import JS.

Definition productionDomain : jsstring :=
  lit "mosaicmaster-production.up.railway.app".

Definition originHttps : jsstring := lit "https://" ++ productionDomain.
Definition originHttp : jsstring := lit "http://" ++ productionDomain.

(** Length of the match of
    [/https?:\/\/mosaicmaster-production\.up\.railway\.app/] at the head of
    [s], if there is one. *)
Definition matchProductionOrigin (s : jsstring) : option nat :=
  if startsWith originHttps s then Some (length originHttps)
  else if startsWith originHttp s then Some (length originHttp)
  else None.

(** [s.replace(/https?:\/\/mosaicmaster-production\.up\.railway\.app/g, '')]:
    one pass from the left; the units of a match are skipped ([skip] counts
    those still to drop) and the scan resumes behind it. *)
Fixpoint replaceOrigin (skip : nat) (s : jsstring) : jsstring :=
  match s with
  | [] => []
  | c :: s' =>
      match skip with
      | S k => replaceOrigin k s'
      | O =>
          match matchProductionOrigin s with
          | Some n => replaceOrigin (pred n) s'
          | None => c :: replaceOrigin O s'
          end
      end
  end.

Definition stripProductionOrigin (s : jsstring) : jsstring := replaceOrigin O s.

(** The remainder behind a leading [https?:\/\/], if [s] has one. *)
Definition afterScheme (s : jsstring) : option jsstring :=
  if startsWith (lit "https://") s then Some (drop 8 s)
  else if startsWith (lit "http://") s then Some (drop 7 s)
  else None.

(** [/^.*p/] matches [s]: some run of units that are not line terminators,
    then [p]. *)
Fixpoint dotStarThen (p s : jsstring) : bool :=
  startsWith p s ||
  match s with
  | [] => false
  | c :: s' => negb (isLineTerminator c) && dotStarThen p s'
  end.

(** [url.match(/^https?:\/\/.*\/api\//)] is not null. *)
Definition matchesAbsoluteApi (s : jsstring) : bool :=
  match afterScheme s with
  | Some r => dotStarThen (lit "/api/") r
  | None => false
  end.

(** The rest of [s] behind its longest prefix of units other than [/]. *)
Fixpoint afterNonSlashes (s : jsstring) : jsstring :=
  match s with
  | [] => []
  | c :: s' => if c =? 47 then s else afterNonSlashes s'
  end.

(** [url.replace(/^https?:\/\/[^\/]+/, '')]: drops the scheme and the
    longest non-empty run of units other than [/]; unchanged when the
    pattern does not match. *)
Definition dropOrigin (s : jsstring) : jsstring :=
  match afterScheme s with
  | Some (c :: r) =>
      if c =? 47 then s else afterNonSlashes r
  | _ => s
  end.

(** The remainder behind the match of [/^.*?p/], the shortest run of
    units that are not line terminators followed by [p]. *)
Fixpoint afterLazyDotThen (p s : jsstring) : option jsstring :=
  if startsWith p s then Some (drop (length p) s)
  else match s with
       | [] => None
       | c :: s' => if isLineTerminator c then None else afterLazyDotThen p s'
       end.

(** [url.replace(/^.*?\/api\//, 'api/')] *)
Definition replaceUpToApi (s : jsstring) : jsstring :=
  match afterLazyDotThen (lit "/api/") s with
  | Some r => lit "api/" ++ r
  | None => s
  end.

(** The three rewriting steps applied to a string [url]. *)
Definition stripStep (url : jsstring) : jsstring :=
  if includes productionDomain url then stripProductionOrigin url else url.

Definition relativeStep (url : jsstring) : jsstring :=
  if matchesAbsoluteApi url then dropOrigin url else url.

Definition forceStep (url : jsstring) : jsstring :=
  if includes (lit "/api/") url && negb (startsWith (lit "/") url)
  then 47 :: replaceUpToApi url
  else url.

Definition rewriteUrl (url : jsstring) : jsstring :=
  forceStep (relativeStep (stripStep url)).

(** The first argument of [fetch]: a string, or something else (a
    [Request] or [URL] object), which every [typeof url === 'string'] test
    lets through untouched. *)
Inductive resource (Obj : Type) : Type :=
| UrlString (url : jsstring)
| UrlObject (o : Obj).
Arguments UrlString {Obj} url.
Arguments UrlObject {Obj} o.

(** The overriding [window.fetch]: rewrite, then call the stored original. *)
Definition fetch {Obj Options Response : Type}
    (originalFetch : resource Obj -> Options -> Response)
    (url : resource Obj) (options : Options) : Response :=
  let url :=
    match url with
    | UrlString s => UrlString (rewriteUrl s)
    | UrlObject o => UrlObject o
    end in
  originalFetch url options.

End FetchInterceptor.

(** ** The progress channel, client side *)

Module ProgressClient.
Import JS.

(** What [JSON.parse] returns.  Numbers are kept on the integer fragment. *)
#[warnings="-register-all"]
Inductive json : Type :=
| JNull
| JBool (b : bool)
| JNumber (z : Z)
| JString (s : jsstring)
| JArray (items : list json)
| JObject (members : list (jsstring * json)).

(** The result of reading a property: a parsed value, or [undefined]. *)
Inductive value : Type :=
| Undefined
| Of (j : json).

(** The member named [k] of an object; the last one wins, as in
    [JSON.parse]. *)
Fixpoint member (k : jsstring) (ms : list (jsstring * json)) : value :=
  match ms with
  | [] => Undefined
  | (k', v) :: ms' =>
      match member k ms' with
      | Undefined => if bool_decide (k' = k) then Of v else Undefined
      | found => found
      end
  end.

Inductive exn : Type :=
| SyntaxError
| TypeError.

(** [data.k] for a name [k] that no prototype defines (such as [progress]
    and [status]): a [TypeError] on [null], the member on an object,
    [undefined] on every other value. *)
Definition getProperty (k : jsstring) (data : json) : exn + value :=
  match data with
  | JNull => inl TypeError
  | JObject ms => inr (member k ms)
  | _ => inr Undefined
  end.

(** [Array.prototype.join(",")] on already rendered items. *)
Fixpoint joinComma (items : list jsstring) : jsstring :=
  match items with
  | [] => []
  | [s] => s
  | s :: rest => s ++ 44 :: joinComma rest
  end.

(** [ToString] of a parsed value, as the [+] operator applies it. *)
Fixpoint jsonToString (j : json) : jsstring :=
  match j with
  | JNull => lit "null"
  | JBool true => lit "true"
  | JBool false => lit "false"
  | JNumber z => toString (Int z)
  | JString s => s
  | JArray items =>
      joinComma
        ((fix each (l : list json) : list jsstring :=
            match l with
            | [] => []
            | JNull :: l' => [] :: each l'
            | i :: l' => jsonToString i :: each l'
            end) items)
  | JObject _ => lit "[object Object]"
  end.

Definition valueToString (v : value) : jsstring :=
  match v with
  | Undefined => lit "undefined"
  | Of j => jsonToString j
  end.

(** What the page does that can be observed from outside the handler. *)
Inductive effect : Type :=
| WsOpen (url : jsstring)                  (* new WebSocket(url) *)
| WsSend (data : jsstring)                 (* ws.send(data) *)
| WsClose                                  (* ws.close() *)
| FormDataAppend (name value : jsstring)   (* formData.append(name, value) *)
| SetStyleWidth (w : jsstring)             (* progressBar.style.width = w *)
| SetTextContent (v : value)               (* statusText.textContent = v *)
| ConsoleError.                            (* console.error(...) *)

(** Statements run for their effects and may throw. *)
Definition stmt (A : Type) : Type := list effect * (exn + A).

Definition ret {A} (a : A) : stmt A := ([], inr a).
Definition throw {A} (e : exn) : stmt A := ([], inl e).
Definition emit (e : effect) : stmt unit := ([e], inr tt).
Definition lift {A} (r : exn + A) : stmt A := ([], r).

Definition bind {A B} (m : stmt A) (k : A -> stmt B) : stmt B :=
  match m with
  | (es, inl e) => (es, inl e)
  | (es, inr a) => let '(es', r) := k a in (es ++ es', r)
  end.

Notation "x <- m ;; k" := (bind m (fun x => k))
  (at level 100, m at next level, right associativity).
Notation "m ;;; k" := (bind m (fun _ => k))
  (at level 100, right associativity).

(** [try { body } catch (error) { console.error(...) }] *)
Definition tryCatchLog (body : stmt unit) : stmt unit :=
  match body with
  | (es, inl _) => (es ++ [ConsoleError], inr tt)
  | (es, inr _) => (es, inr tt)
  end.

Record location : Type := { protocol : jsstring; host : jsstring }.

(** Whether [document.getElementById] finds the two progress elements (the
    page does not add or remove them while a channel is open, so looking
    them up when the channel is set up or at each message is the same). *)
Record elements : Type := { progressBar : bool; statusText : bool }.

(** [`${protocol}://${window.location.host}/ws/${connectionId}`] with
    [protocol = window.location.protocol === "https:" ? "wss" : "ws"]. *)
Definition wsUrl (loc : location) (connectionId : jsstring) : jsstring :=
  let protocol :=
    if bool_decide (protocol loc = lit "https:") then lit "wss" else lit "ws" in
  protocol ++ lit "://" ++ host loc ++ lit "/ws/" ++ connectionId.

(** The two updates every [onmessage] handler performs:
    [if (progressBar) progressBar.style.width = data.progress + "%";]
    [if (statusText) statusText.textContent = data.status;] *)
Definition updateProgress (els : elements) (data : json) : stmt unit :=
  (if progressBar els
   then p <- lift (getProperty (lit "progress") data) ;;
        emit (SetStyleWidth (valueToString p ++ lit "%"))
   else ret tt) ;;;
  (if statusText els
   then s <- lift (getProperty (lit "status") data) ;;
        emit (SetTextContent s)
   else ret tt).

Section Handlers.

(** [JSON.parse]; [None] stands for the [SyntaxError] it throws. *)
Variable JSON_parse : jsstring -> option json.

Definition parse (raw : jsstring) : stmt json :=
  match JSON_parse raw with
  | Some data => ret data
  | None => throw SyntaxError
  end.

(** [ws.onmessage] of [VideoEditorCore.initWebSocket] and of the fallback in
    the trim module: nothing is caught. *)
Definition onmessage (els : elements) (raw : jsstring) : stmt unit :=
  data <- parse raw ;;
  updateProgress els data.

(** [ws.onmessage] of [VideoEditorUtils.initWebSocket]: the same body
    inside [try]/[catch]. *)
Definition onmessage_guarded (els : elements) (raw : jsstring) : stmt unit :=
  tryCatchLog (data <- parse raw ;; updateProgress els data).

(** An open channel: what opening it did, and its message handler. *)
Record channel : Type := {
  opening : list effect;
  handler : jsstring -> stmt unit
}.


(** [VideoEditorCore.initWebSocket(connectionId)]: a missing or empty
    argument is replaced by [crypto.randomUUID()], whose result is
    [randomUUID]. *)
Definition VideoEditorCore_initWebSocket
    (loc : location) (els : elements) (randomUUID : jsstring)
    (connectionId : option jsstring) : channel :=
  let connectionId :=
    match connectionId with
    | Some (c :: s) => c :: s
    | _ => randomUUID
    end in
  {| opening := [WsOpen (wsUrl loc connectionId)];
     handler := onmessage els |}.

(** The fallback [initWebSocket(connectionId)] of the trim module. *)
Definition TrimModule_initWebSocket
    (loc : location) (els : elements) (connectionId : jsstring) : channel :=
  {| opening := [WsOpen (wsUrl loc connectionId)];
     handler := onmessage els |}.

(** The part of [executeTrim] that sets the channel up:
    [const connectionId = crypto.randomUUID();]
    [formData.append("connection_id", connectionId);]
    [const ws = window.VideoEditorCore ? ... : initWebSocket(connectionId);]
    [randomUUID] is what [crypto.randomUUID()] returns at this call and
    [nextUUID] what a further call would return. *)
Definition executeTrim_connect
    (coreLoaded : bool) (loc : location) (els : elements)
    (randomUUID nextUUID : jsstring) : channel :=
  let connectionId := randomUUID in
  let ws :=
    if coreLoaded
    then VideoEditorCore_initWebSocket loc els nextUUID (Some connectionId)
    else TrimModule_initWebSocket loc els connectionId in
  {| opening := FormDataAppend (lit "connection_id") connectionId :: opening ws;
     handler := handler ws |}.


End Handlers.

End ProgressClient.

(** ** The stream-session core

    The registry, the supervisor and the recovery loop run on the server,
    whose code is not among the sources; section by section, this module
    transcribes what the design document says about them. *)

Module StreamCore.

(** Modelled from the spec: the session states of section 3,
    [Pending -> Resolving -> Capturing -> Live -> Stopping -> Stopped | Failed]
    (the server code is not part of the sources at hand). *)
Inductive State : Type :=
| Pending
| Resolving
| Capturing
| Live
| Stopping
| Stopped
| Failed.

#[global] Instance State_eq_dec : EqDecision State.
Proof. solve_decision. Defined.

(** Modelled from the spec: "Terminal states: [Stopped], [Failed]"
    (section 4.3). *)
Definition terminal (st : State) : bool :=
  match st with
  | Stopped | Failed => true
  | _ => false
  end.


(** Modelled from the spec: the resolver's failure classes (sections 4.2
    and 7 together name these five). *)
Inductive ResolutionError : Type :=
| Unsupported
| Unavailable
| RateLimited
| Timeout
| Unknown.

(** Modelled from the spec: "[Unsupported] is terminal; others are
    retryable with backoff" (section 7). *)
Definition retryable (e : ResolutionError) : bool :=
  match e with
  | Unsupported => false
  | _ => true
  end.

(** Modelled from the spec: the process failures of section 7. *)
Inductive ProcessError : Type :=
| SpawnFailed
| CrashedNonZero
| HeartbeatTimeout
| KillTimeout.

(** Modelled from the spec: what [lastError] may hold, a failure of either
    taxonomy of section 7 (the server code is not among the sources). *)
Inductive Error : Type :=
| ResolutionFailed (e : ResolutionError)
| ProcessFailed (e : ProcessError).

(** Modelled from the spec: the [StreamSession] entity of section 3.  Ids,
    process handles, connection ids and times are numbers; [outputDir] is
    the key of the session's own directory. *)
Record Session : Type := mkSession {
  id : N;
  sourceURL : string;
  platform : string;
  state : State;
  resolvedMediaRef : option string;
  processHandle : option N;
  outputDir : N;
  retryCount : nat;
  lastError : option Error;
  startedAt : N;
  lastHeartbeatAt : N;
  subscribers : gset N
}.

(** Modelled from the spec: the field updates the mutators are made of
    ([resolvedMediaRef] "populated on successful resolution", the handle
    taken and given up, [retryCount++], [lastError]). *)
Definition set_resolvedMediaRef (r : option string) (s : Session) : Session :=
  mkSession (id s) (sourceURL s) (platform s) (state s) r (processHandle s)
    (outputDir s) (retryCount s) (lastError s) (startedAt s)
    (lastHeartbeatAt s) (subscribers s).

Definition set_processHandle (h : option N) (s : Session) : Session :=
  mkSession (id s) (sourceURL s) (platform s) (state s) (resolvedMediaRef s) h
    (outputDir s) (retryCount s) (lastError s) (startedAt s)
    (lastHeartbeatAt s) (subscribers s).

Definition set_lastError (e : option Error) (s : Session) : Session :=
  mkSession (id s) (sourceURL s) (platform s) (state s) (resolvedMediaRef s)
    (processHandle s) (outputDir s) (retryCount s) e (startedAt s)
    (lastHeartbeatAt s) (subscribers s).

Definition incr_retryCount (s : Session) : Session :=
  mkSession (id s) (sourceURL s) (platform s) (state s) (resolvedMediaRef s)
    (processHandle s) (outputDir s) (S (retryCount s)) (lastError s)
    (startedAt s) (lastHeartbeatAt s) (subscribers s).

(** Modelled from the spec: what a transition writes.  The state becomes
    [next]; [id], [sourceURL], [platform] and [outputDir] stay those of the
    stored session ("immutable inputs", "stable for the session's
    lifetime"); every other field is what the mutator returned. *)
Definition commit (stored : Session) (next : State) (mutated : Session) : Session :=
  mkSession (id stored) (sourceURL stored) (platform stored) next
    (resolvedMediaRef mutated) (processHandle mutated) (outputDir stored)
    (retryCount mutated) (lastError mutated) (startedAt mutated)
    (lastHeartbeatAt mutated) (subscribers mutated).

(** Modelled from the spec: the edges of section 4.3.  "any --explicit stop
    request--> Stopping" is read over the non-terminal states, a terminal
    state having no way out; [Resolving -> Failed] is the spawn failure that
    exceeds [maxRetries]. *)
Definition edge (a b : State) : bool :=
  match a, b with
  | Pending, Resolving => true
  | Resolving, Capturing => true
  | Pending, Failed => true
  | Resolving, Pending => true
  | Resolving, Failed => true
  | Capturing, Live => true
  | Capturing, Pending | Live, Pending => true
  | Capturing, Failed | Live, Failed => true
  | Stopping, Stopped => true
  | _, Stopping => negb (terminal a)
  | _, _ => false
  end.

(** Modelled from the spec: the registry of section 4.1, "the
    authoritative in-memory store", with the source of fresh ids. *)
Record Registry : Type := mkRegistry {
  sessions : gmap N Session;
  nextId : N
}.

Definition emptyRegistry : Registry := mkRegistry ∅ 0.

(** Modelled from the spec: the failures of the registry API.  [NotFound]
    and [Conflict] are named in section 4.1; [Rejected] stands for "illegal
    transitions are rejected, not silently coerced", for which no name is
    given. *)
Inductive RegistryError : Type :=
| NotFound
| Conflict
| Rejected.

(** Modelled from the spec: [get(id) -> Session | NotFound]. *)
Definition get (reg : Registry) (i : N) : option Session := sessions reg !! i.

(** Modelled from the spec: "an equivalent non-terminal session", "a
    non-terminal session ... for the same source". *)
Definition equivalentTo (url : string) (s : Session) : bool :=
  bool_decide (sourceURL s = url) && negb (terminal (state s)).

Definition findEquivalent (reg : Registry) (url : string) : option N :=
  fst <$> head (map_to_list
                  (filter (fun kv : N * Session => Is_true (equivalentTo url kv.2))
                          (sessions reg))).

(** Modelled from the spec: a session as created, "Initial state:
    [Pending] on creation". *)
Definition newSession (i : N) (url plat : string) (now : N) : Session :=
  mkSession i url plat Pending None None i 0 None now now ∅.

(** Modelled from the spec: [create(sourceURL, platform) -> SessionID],
    "idempotent: returns existing id if an equivalent non-terminal session
    exists". *)
Definition create (reg : Registry) (url plat : string) (now : N) : N * Registry :=
  match findEquivalent reg url with
  | Some i => (i, reg)
  | None =>
      let i := nextId reg in
      (i, mkRegistry (<[i := newSession i url plat now]> (sessions reg)) (N.succ i))
  end.

(** Modelled from the spec:
    [transition(id, expectedState, nextState, mutator) -> Result], "a
    compare-and-swap: the caller states the state it expects to find; a
    mismatch ... fails the call rather than overwriting". *)
Definition transition (reg : Registry) (i : N) (expected next : State)
    (mutator : Session -> Session) : RegistryError + Registry :=
  match sessions reg !! i with
  | None => inl NotFound
  | Some s =>
      if bool_decide (state s = expected) then
        if edge expected next
        then inr (mkRegistry (<[i := commit s next (mutator s)]> (sessions reg))
                             (nextId reg))
        else inl Rejected
      else inl Conflict
  end.

(** Modelled from the spec: step 3 of the RecoveryController, which
    "reclaims their output directory, then removes them from the registry";
    only terminal sessions are removed (the retention clock is left out). *)
Definition reclaim (reg : Registry) (i : N) : Registry :=
  match sessions reg !! i with
  | Some s =>
      if terminal (state s)
      then mkRegistry (delete i (sessions reg)) (nextId reg)
      else reg
  | None => reg
  end.

(** Modelled from the spec: what the supervisor, the resolver and the HTTP
    layer report about a session (the triggers of section 4.3). *)
Inductive Event : Type :=
| ResolveOk (mediaRef : string)
| ResolveFail (e : ResolutionError)
| SpawnOk (handle : N)
| SpawnFail
| FirstSegment
| ProcessExit (code : Z)
| HeartbeatStale
| StopRequest
| ProcessTerminated.

(** Modelled from the spec: "[retryCount++] or Failed if retryCount > max":
    the failure is counted, then the count is compared with [maxRetries]
    ("counted toward retryCount; exceeding maxRetries ... moves the session
    to Failed"). *)
Definition afterFailure (maxRetries : nat) (s : Session) : State :=
  if bool_decide (maxRetries < S (retryCount s))%nat then Failed else Pending.

(** Modelled from the spec: the rows of section 4.3, as the target state
    and the mutator that the reporting component passes to [transition].
    The process handle is taken on "spawn ok" and given up "on every exit
    from the Capturing/Live/Stopping states" (section 9). *)
Definition fire (maxRetries : nat) (ev : Event) (s : Session)
  : option (State * (Session -> Session)) :=
  match state s, ev with
  | Pending, ResolveOk r =>
      Some (Resolving, set_resolvedMediaRef (Some r))
  | Pending, ResolveFail Unsupported =>
      Some (Failed, fun s => set_lastError (Some (ResolutionFailed Unsupported))
                               (set_resolvedMediaRef None s))
  | Resolving, ResolveFail e =>
      if retryable e
      then Some (Pending, fun s => set_lastError (Some (ResolutionFailed e))
                                     (incr_retryCount s))
      else None
  | Resolving, SpawnOk h =>
      Some (Capturing, set_processHandle (Some h))
  | Resolving, SpawnFail =>
      Some (afterFailure maxRetries s,
            fun s => set_lastError (Some (ProcessFailed SpawnFailed))
                       (incr_retryCount s))
  | Capturing, FirstSegment =>
      Some (Live, fun s => s)
  | (Capturing | Live), ProcessExit code =>
      if bool_decide (code = 0%Z) then None
      else Some (afterFailure maxRetries s,
                 fun s => set_lastError (Some (ProcessFailed CrashedNonZero))
                            (set_processHandle None (incr_retryCount s)))
  | (Capturing | Live), HeartbeatStale =>
      Some (afterFailure maxRetries s,
            fun s => set_lastError (Some (ProcessFailed HeartbeatTimeout))
                       (set_processHandle None (incr_retryCount s)))
  | Stopping, ProcessTerminated =>
      Some (Stopped, set_processHandle None)
  | st, StopRequest =>
      if terminal st then None else Some (Stopping, fun s => s)
  | _, _ => None
  end.

(** Modelled from the spec: a report about session [i], applied through
    [transition] ("mutated exclusively through the registry's transition
    API") with the state just read as the expected state. *)
Definition dispatch (maxRetries : nat) (reg : Registry) (i : N) (ev : Event)
  : RegistryError + Registry :=
  match get reg i with
  | None => inl NotFound
  | Some s =>
      match fire maxRetries ev s with
      | None => inl Rejected
      | Some (next, mutator) => transition reg i (state s) next mutator
      end
  end.








(** Modelled from the spec: one call on the registry API of section 4.1,
    by any component. *)
Inductive ApiStep : Registry -> Registry -> Prop :=
| api_create reg url plat now :
    ApiStep reg (create reg url plat now).2
| api_transition reg i expected next mutator reg' :
    transition reg i expected next mutator = inr reg' ->
    ApiStep reg reg'
| api_reclaim reg i :
    ApiStep reg (reclaim reg i).

(** Modelled from the spec: one move of the system, that is a start
    request, a report about a session applied through [dispatch], or a
    cleanup. *)
Inductive SystemStep (maxRetries : nat) : Registry -> Registry -> Prop :=
| sys_create reg url plat now :
    SystemStep maxRetries reg (create reg url plat now).2
| sys_dispatch reg i ev reg' :
    dispatch maxRetries reg i ev = inr reg' ->
    SystemStep maxRetries reg reg'
| sys_reclaim reg i :
    SystemStep maxRetries reg (reclaim reg i).

Definition ApiReachable (reg : Registry) : Prop := rtc ApiStep emptyRegistry reg.

Definition Reachable (maxRetries : nat) (reg : Registry) : Prop :=
  rtc (SystemStep maxRetries) emptyRegistry reg.

(** Every session is stored under its own id, below the next fresh id. *)
Definition wellKeyed (reg : Registry) : Prop :=
  forall i s, sessions reg !! i = Some s -> id s = i /\ (i < nextId reg)%N.

(** No two non-terminal sessions share a source. *)
Definition oneActivePerSource (reg : Registry) : Prop :=
  forall i j s t,
    sessions reg !! i = Some s -> sessions reg !! j = Some t ->
    sourceURL s = sourceURL t ->
    terminal (state s) = false -> terminal (state t) = false -> i = j.

End StreamCore.

(** ** Notions used to state the properties *)

Section TimeNotions.
Import JS.

Definition all_digits (s : jsstring) : Prop := Forall (fun c => isDigit c = true) s.

(** The three fields of a whole, non-negative second count. *)
Definition hours_of (s : N) : Z := (Z.of_N s / 3600)%Z.
Definition minutes_of (s : N) : Z := (Z.rem (Z.of_N s) 3600 / 60)%Z.
Definition seconds_of (s : N) : Z := Z.rem (Z.of_N s) 60.

End TimeNotions.

Section AddressNotions.
Import JS.

Definition noSlash (s : jsstring) : Prop := Forall (fun c => c <> 47) s.

(** The units of a host: neither [/] nor line terminators. *)
Definition hostUnits (s : jsstring) : Prop :=
  Forall (fun c => c <> 47 /\ isLineTerminator c = false) s.

End AddressNotions.

Section ChannelNotions.
Import JS ProgressClient.







Definition sample_uuid : jsstring := lit "3b241101-e2bb-4255-8caf-4136c566a962".



End ChannelNotions.

Section RegistryNotions.
Import StreamCore.


End RegistryNotions.

Section SessionNotions.
Import StreamCore.



(** A registry with one fresh session, and the same after a stop request. *)
Definition oneSession : Registry :=
  (create emptyRegistry "https://www.twitch.tv/somechannel" "twitch" 0).2.





Definition freshSession : Session :=
  newSession 0 "https://www.twitch.tv/somechannel" "twitch" 0.



End SessionNotions.

(** ** Further notions used to state properties of the helpers *)

Section FieldNotions.
Import JS.

(** Fields joined by colons, as a time code is written. *)
Fixpoint joinColon (fields : list jsstring) : jsstring :=
  match fields with
  | [] => []
  | [f] => f
  | f :: rest => f ++ 58 :: joinColon rest
  end.

Definition colonFree (f : jsstring) : Prop := Forall (fun c => c <> 58) f.

(** A decimal field: the zero-padded rendering of a natural number. *)
Definition field (n : N) : jsstring := padStart 2 48 (toString (Int (Z.of_N n))).


End FieldNotions.

(** ** Platform presets of the core module *)

Module CorePresets.
Import JS.

(** One entry of [platformPresets]. *)
Record preset : Type := {
  aspectRatio : jsstring;
  maxDuration : number;
  class : jsstring
}.

Definition platformPresets : list (jsstring * preset) :=
  [ (lit "youtube",
     {| aspectRatio := lit "16:9"; maxDuration := Int 720;
        class := lit "platform-youtube" |});
    (lit "youtube_shorts",
     {| aspectRatio := lit "9:16"; maxDuration := Int 60;
        class := lit "platform-youtube_shorts" |});
    (lit "tiktok",
     {| aspectRatio := lit "9:16"; maxDuration := Int 180;
        class := lit "platform-tiktok" |});
    (lit "instagram",
     {| aspectRatio := lit "1:1"; maxDuration := Int 60;
        class := lit "platform-instagram" |});
    (lit "instagram_reels",
     {| aspectRatio := lit "9:16"; maxDuration := Int 90;
        class := lit "platform-instagram_reels" |}) ].

(** The names every object literal inherits from [Object.prototype]. *)
Definition objectPrototypeNames : list jsstring :=
  [ lit "constructor"; lit "__proto__"; lit "hasOwnProperty";
    lit "isPrototypeOf"; lit "propertyIsEnumerable"; lit "toLocaleString";
    lit "toString"; lit "valueOf"; lit "__defineGetter__";
    lit "__defineSetter__"; lit "__lookupGetter__"; lit "__lookupSetter__" ].

(** What [platformPresets[platform]] evaluates to: an entry of the table,
    an inherited member (truthy, without [class] or [maxDuration]), or
    [undefined]. *)
Inductive property : Type :=
| Own (p : preset)
| Inherited
| Absent.

Fixpoint ownPreset (platform : jsstring) (table : list (jsstring * preset))
  : option preset :=
  match table with
  | [] => None
  | (name, p) :: rest =>
      if bool_decide (name = platform) then Some p else ownPreset platform rest
  end.

Definition lookupPreset (platform : jsstring) : property :=
  match ownPreset platform platformPresets with
  | Some p => Own p
  | None =>
      if bool_decide (platform ∈ objectPrototypeNames) then Inherited else Absent
  end.

(** [a > b] on numbers: false as soon as one side is [NaN]. *)
Definition gt (a b : number) : bool :=
  match a, b with
  | Int x, Int y => bool_decide (y < x)%Z
  | _, _ => false
  end.

(** A number used as a condition: [NaN] and [0] are falsy. *)
Definition truthy (a : number) : bool :=
  match a with
  | Int z => negb (bool_decide (z = 0%Z))
  | NaN => false
  end.

(** [Math.min(a, b)] *)
Definition min (a b : number) : number :=
  match a, b with
  | Int x, Int y => Int (Z.min x y)
  | _, _ => NaN
  end.

(** The module variables these handlers read and write. *)
Record vars : Type := {
  videoDuration : number;
  startTime : number;
  endTime : number
}.

Definition set_endTime (e : number) (v : vars) : vars :=
  {| videoDuration := videoDuration v; startTime := startTime v; endTime := e |}.

(** Whether [getElementById] finds the elements the handlers touch. *)
Record page : Type := {
  videoContainer : bool;
  endTimeInput : bool;
  aspectRatioSelector : bool
}.

Inductive effect : Type :=
| SetClassName (cls : jsstring)        (* videoContainer.className = cls *)
| ClassListAdd (token : jsstring)      (* videoContainer.classList.add(token) *)
| SetEndTimeInput (value : jsstring)   (* endTimeInput.value = value *)
| SetSelectorValue (value : jsstring)  (* aspectRatioSelector.value = value *)
| Alert (message : jsstring)           (* alert(message) *)
| UpdateTrimRegion (seen : vars).      (* updateTrimRegion(), with the variables it reads *)

(** [endTime = Math.min(maxDuration, videoDuration)], the end-time field
    refreshed when it exists. *)
Definition clampEnd (pg : page) (limit : number) (v : vars) : vars * list effect :=
  let v' := set_endTime (min limit (videoDuration v)) v in
  (v', if endTimeInput pg
       then [SetEndTimeInput (VideoEditorCore.formatTime (endTime v'))] else []).

(** [applyAspectRatio(platform)] *)
Definition applyAspectRatio (pg : page) (platform : jsstring) (v : vars)
  : vars * list effect :=
  if negb (videoContainer pg) then (v, [])
  else
    let reset := [SetClassName (lit "video-preview")] in
    if bool_decide (platform = lit "original") then (v, reset)
    else
      match lookupPreset platform with
      | Own p =>
          let marked := reset ++ [ClassListAdd (class p)] in
          if gt (videoDuration v) (Int 0) && truthy (maxDuration p) then
            if gt (endTime v) (maxDuration p) then
              let '(v', shown) := clampEnd pg (maxDuration p) v in
              (v', marked ++ shown ++ [UpdateTrimRegion v'])
            else (v, marked)
          else (v, marked)
      | Inherited => (v, reset ++ [ClassListAdd (lit "undefined")])
      | Absent => (v, reset ++ [ClassListAdd (lit "platform-youtube")])
      end.

(** The click handler of [applyPresetBtn]; [platform] is the value of the
    [platformPreset] select. *)
Definition applyPresetClick (pg : page) (platform : jsstring) (v : vars)
  : vars * list effect :=
  match lookupPreset platform with
  | Absent => (v, [])
  | found =>
      let '(v1, e1) :=
        if aspectRatioSelector pg
        then let '(v', e) := applyAspectRatio pg platform v in
             (v', SetSelectorValue platform :: e)
        else (v, []) in
      match found with
      | Own p =>
          if truthy (maxDuration p) && gt (videoDuration v1) (maxDuration p) then
            let '(v2, shown) := clampEnd pg (maxDuration p) v1 in
            (v2, e1 ++ shown ++
                 [Alert (platform ++ lit " has a maximum duration of " ++
                         VideoEditorCore.formatTime (maxDuration p) ++
                         lit ". End time adjusted.");
                  UpdateTrimRegion v2])
          else (v1, e1)
      | _ => (v1, e1)
      end
  end.

End CorePresets.

(** ** The trim module ([executeTrim]) *)

Module TrimModule.
Import JS ProgressClient.

(** What [executeTrim] finds on the page: the selected video file (by
    name), the values of the inputs that exist, and which elements and
    libraries are there. *)
Record form : Type := {
  videoFile : option jsstring;
  subtitlesPanel : bool;
  startTimeInput : option jsstring;
  endTimeInput : option jsstring;
  outputFormat : option jsstring;
  extractAudio : option bool;
  preserveSubtitles : option bool;
  useOpenshot : option bool;
  outputQuality : option jsstring;
  processingSection : bool;
  downloadBtn : bool;
  downloadBtnParent : bool;
  coreLoaded : bool;
  lucideLoaded : bool
}.

(** How [await fetch(...)] and the reading of the response end. *)
Inductive response : Type :=
| NetworkError (message : jsstring)        (* fetch, or response.text(), rejects *)
| HttpFailure (body : jsstring)            (* !response.ok, body read as text *)
| HttpSuccess (result : jsstring + json).  (* response.json() rejects, or a value *)

(** The messages the engine puts into the errors it raises itself. *)
Record engine : Type := {
  nullPropertyMessage : jsstring -> jsstring;
  undefinedVariableMessage : jsstring -> jsstring
}.

Inductive effect : Type :=
| Alert (message : jsstring)
| ShowSubtitlesPanel                      (* subtitlesPanel.style.display = 'block' *)
| Chan (e : ProgressClient.effect)
| FormDataAppendFile (name file : jsstring)
| ShowProcessingSection                   (* processingSection.classList.remove('hidden') *)
| SetDisabled (b : bool)                  (* this.disabled = b *)
| Fetch (url method : jsstring)
| SetDownloadButtonHTML
| SetDownloadButtonTarget (target : value) (* onclick opens target *)
| ShowDownloadButton
| CreateIcons                             (* lucide.createIcons() *)
| AudioButtonCreated (target : value)
| AudioButtonAppended
| MarkProgressFailed.                     (* progressBar.classList.add("bg-red-500") *)

(** A parsed value used as a condition. *)
Definition truthyValue (v : value) : bool :=
  match v with
  | Undefined | Of JNull | Of (JBool false) => false
  | Of (JNumber z) => negb (bool_decide (z = 0%Z))
  | Of (JString s) => negb (bool_decide (s = []))
  | _ => true
  end.

(** How [FormData.append] stores [el && el.checked]. *)
Definition checkedText (c : option bool) : jsstring :=
  match c with
  | None => lit "null"
  | Some true => lit "true"
  | Some false => lit "false"
  end.

Definition text (s : jsstring) : value := Of (JString s).

Definition noVideoMessage : jsstring :=
  lit "K" ++ [233] ++ lit "rj" ++ [252] ++ lit "k, el" ++ [337] ++ lit "sz" ++
  [246] ++ lit "r t" ++ [246] ++ lit "lts" ++ [246] ++ lit "n fel egy vide" ++
  [243] ++ lit " f" ++ [225] ++ lit "jlt!".

(** The fields appended to the form before the connection id. *)
Definition formFields (f : form) (file startTime endTime : jsstring) : list effect :=
  [ FormDataAppendFile (lit "file") file;
    Chan (FormDataAppend (lit "start_time") startTime);
    Chan (FormDataAppend (lit "end_time") endTime);
    Chan (FormDataAppend (lit "output_format")
            (match outputFormat f with Some v => v | None => lit "mp4" end));
    Chan (FormDataAppend (lit "extract_audio") (checkedText (extractAudio f)));
    Chan (FormDataAppend (lit "preserve_subtitles")
            (checkedText (preserveSubtitles f))) ] ++
  match useOpenshot f with
  | Some c => [Chan (FormDataAppend (lit "use_openshot") (checkedText (Some c)))]
  | None => []
  end ++
  match outputQuality f with
  | Some q => [Chan (FormDataAppend (lit "quality") q)]
  | None => []
  end.

(** [lucide.createIcons()]: a [ReferenceError] when the library is not
    loaded. *)
Definition createIcons (eng : engine) (f : form) : list effect * option jsstring :=
  if lucideLoaded f then ([CreateIcons], None)
  else ([], Some (undefinedVariableMessage eng (lit "lucide"))).

(** The statements of the [try] block behind the [await]s that succeeded
    with [result]: effects, and the message of the error thrown, if any. *)
Definition showResult (eng : engine) (f : form) (els : elements) (result : json)
  : list effect * option jsstring :=
  let done :=
    (if progressBar els then [Chan (SetStyleWidth (lit "100%"))] else []) ++
    (if statusText els
     then [Chan (SetTextContent (text (lit "Video trimming complete!")))] else []) in
  match getProperty (lit "download_url") result with
  | inl _ => (done, Some (nullPropertyMessage eng (lit "download_url")))
  | inr url =>
      if truthyValue url then
        let '(e1, err1) :=
          if downloadBtn f then
            let '(icons, err) := createIcons eng f in
            ([SetDownloadButtonHTML; SetDownloadButtonTarget url; ShowDownloadButton]
             ++ icons, err)
          else ([], None) in
        match err1 with
        | Some m => (done ++ e1, Some m)
        | None =>
            match getProperty (lit "audio_download_url") result with
            | inl _ => (done ++ e1,
                        Some (nullPropertyMessage eng (lit "audio_download_url")))
            | inr audio =>
                if truthyValue audio then
                  if downloadBtn f && downloadBtnParent f then
                    let '(icons, err) := createIcons eng f in
                    (done ++ e1 ++ [AudioButtonCreated audio; AudioButtonAppended]
                     ++ icons, err)
                  else (done ++ e1 ++ [AudioButtonCreated audio], None)
                else (done ++ e1, None)
            end
        end
      else (done, None)
  end.

(** The [try] block: the request and what follows it. *)
Definition tryBlock (eng : engine) (f : form) (els : elements) (r : response)
  : list effect * option jsstring :=
  let request := Fetch (lit "/api/videocutter/trim") (lit "POST") in
  match r with
  | NetworkError m => ([request], Some m)
  | HttpFailure body => ([request], Some body)
  | HttpSuccess (inl m) => ([request], Some m)
  | HttpSuccess (inr result) =>
      let '(es, err) := showResult eng f els result in (request :: es, err)
  end.

(** The [catch] block: log, show the message, turn the bar red. *)
Definition catchBlock (els : elements) (message : jsstring) : list effect :=
  [Chan ConsoleError] ++
  (if statusText els
   then [Chan (SetTextContent (text (lit "Error: " ++ message)))] else []) ++
  (if progressBar els then [MarkProgressFailed] else []).

Section Run.

Variable JSON_parse : jsstring -> option json.

(** [executeTrim()], from the click to the end of its [finally] block.
    [randomUUID] and [nextUUID] are the results of this and of a further
    call of [crypto.randomUUID()]; [r] is how the request ends.  The
    messages that arrive on the channel meanwhile are handled by the
    channel's own handler and are not part of this trace. *)
Definition executeTrim (eng : engine) (loc : location) (els : elements)
    (f : form) (randomUUID nextUUID : jsstring) (r : response) : list effect :=
  match videoFile f with
  | None => [Alert noVideoMessage]
  | Some file =>
      let panel := if subtitlesPanel f then [ShowSubtitlesPanel] else [] in
      match startTimeInput f, endTimeInput f with
      | Some startTime, Some endTime =>
          if bool_decide (startTime = []) || bool_decide (endTime = [])
          then panel ++ [Alert (lit "Please set start and end times")]
          else
            let ws := executeTrim_connect JSON_parse (coreLoaded f) loc els
                        randomUUID nextUUID in
            let '(tried, err) := tryBlock eng f els r in
            panel ++
            formFields f file startTime endTime ++
            List.map Chan (opening ws) ++
            (if processingSection f then [ShowProcessingSection] else []) ++
            (if progressBar els then [Chan (SetStyleWidth (lit "0%"))] else []) ++
            (if statusText els
             then [Chan (SetTextContent (text (lit "Starting video trim...")))]
             else []) ++
            [SetDisabled true] ++
            tried ++
            match err with
            | Some m => catchBlock els m
            | None => []
            end ++
            [SetDisabled false; Chan WsClose]
      | _, _ => panel ++ [Alert (lit "Missing required elements")]
      end
  end.

End Run.

(** The checks that come before anything is sent. *)
Definition validated (f : form) : bool :=
  match videoFile f, startTimeInput f, endTimeInput f with
  | Some _, Some startTime, Some endTime =>
      negb (bool_decide (startTime = [])) && negb (bool_decide (endTime = []))
  | _, _, _ => false
  end.

(** The effects on the socket, the button and the network. *)
Definition control (e : effect) : bool :=
  match e with
  | Chan (WsOpen _) | Chan (WsSend _) | Chan WsClose
  | SetDisabled _ | Fetch _ _ => true
  | _ => false
  end.

Definition request : effect := Fetch (lit "/api/videocutter/trim") (lit "POST").

(** What the status line shows once the trace is over. *)
Definition lastStatus (es : list effect) : option value :=
  fold_left (fun shown e =>
               match e with
               | Chan (SetTextContent v) => Some v
               | _ => shown
               end) es None.

(** The answers that get past the [try] block without an error. *)
Definition completes (f : form) (r : response) : bool :=
  match r with
  | HttpSuccess (inr result) =>
      match getProperty (lit "download_url") result with
      | inl _ => false
      | inr url => negb (truthyValue url && downloadBtn f && negb (lucideLoaded f))
      end
  | _ => false
  end.

(** What is done before the button is disabled. *)
Definition setsUp (e : effect) : bool :=
  match e with
  | ShowSubtitlesPanel | FormDataAppendFile _ _ | Chan (FormDataAppend _ _)
  | Chan (WsOpen _) | ShowProcessingSection => true
  | Chan (SetStyleWidth w) => bool_decide (w = lit "0%")
  | Chan (SetTextContent (Of (JString s))) =>
      bool_decide (s = lit "Starting video trim...")
  | _ => false
  end.

Definition alerts (e : effect) : bool :=
  match e with
  | Alert _ => true
  | _ => false
  end.

Definition createsAudioButton (e : effect) : bool :=
  match e with
  | AudioButtonCreated _ => true
  | _ => false
  end.

(** A page and an engine for the examples. *)
Definition sampleEngine : engine :=
  {| nullPropertyMessage k := lit "Cannot read properties of null (reading '" ++ k ++ lit "')";
     undefinedVariableMessage x := x ++ lit " is not defined" |}.

Definition sampleForm : form :=
  {| videoFile := Some (lit "clip.mp4");
     subtitlesPanel := true;
     startTimeInput := Some (lit "00:00:05");
     endTimeInput := Some (lit "00:00:20");
     outputFormat := Some (lit "mp4");
     extractAudio := Some true;
     preserveSubtitles := Some false;
     useOpenshot := None;
     outputQuality := Some (lit "high");
     processingSection := true;
     downloadBtn := true;
     downloadBtnParent := true;
     coreLoaded := true;
     lucideLoaded := false |}.

Definition sampleLocation : location :=
  {| protocol := lit "https:"; host := lit "example.org" |}.

Definition sampleElements : elements :=
  {| progressBar := true; statusText := true |}.

Definition sampleResult : json :=
  JObject [(lit "download_url", JString (lit "/download/clip.mp4"));
           (lit "audio_download_url", JString (lit "/download/clip.mp3"))].

End TrimModule.

(** ** The ruler and the zoom of the timer module *)

Module TimerTimeline.
Import JS.

(** What the functions do to the page.  A marking or label for [time] is
    placed at [(time / duration) * 100] percent from the left. *)
Inductive effect : Type :=
| ClearMarkings                              (* timeMarkings.innerHTML = '' *)
| AppendMarking (major : bool) (time : Z)
| AppendLabel (time : Z) (text : jsstring)
| UpdateTrimRegion                           (* this.updateTrimRegion() *)
| SetTrackWidth (w : jsstring).              (* track.style.width = w *)

(** [interval] and [majorInterval], in seconds, for a duration. *)
Definition intervals (duration : Z) : Z * Z :=
  if bool_decide (60 < duration)%Z && bool_decide (duration <= 300)%Z then (5, 30)%Z
  else if bool_decide (300 < duration)%Z && bool_decide (duration <= 1800)%Z
       then (30, 300)%Z
  else if bool_decide (1800 < duration)%Z then (60, 600)%Z
  else (1, 5)%Z.

(** The body of the loop.  For the positive durations the loop runs on,
    [percentage > 100] is [time > duration]. *)
Definition mark (duration majorInterval time : Z) : list effect :=
  let isMajor := bool_decide (Z.rem time majorInterval = 0%Z) in
  if bool_decide (duration < time)%Z then []
  else
    AppendMarking isMajor time ::
    (if isMajor then [AppendLabel time (TimerModule.formatTime (Int time))]
     else []).

(** [for (let time = 0; time <= duration; time += interval)], from [time]
    on, for at most [fuel] rounds. *)
Fixpoint markFrom (fuel : nat) (duration interval majorInterval time : Z)
  : list effect :=
  match fuel with
  | O => []
  | S fuel' =>
      if bool_decide (time <= duration)%Z
      then mark duration majorInterval time ++
           markFrom fuel' duration interval majorInterval (time + interval)
      else []
  end.

(** [TimerModule.createTimeMarkings()], for a whole number of seconds in
    [window.videoDuration]; [timeMarkings] tells whether the element
    exists.  The loop advances by at least one second, so [duration + 1]
    rounds are never used up. *)
Definition createTimeMarkings (timeMarkings : bool) (videoDuration : number)
  : list effect :=
  match videoDuration with
  | NaN => []
  | Int duration =>
      if negb timeMarkings || bool_decide (duration = 0%Z) then []
      else
        let '(interval, majorInterval) := intervals duration in
        ClearMarkings ::
        markFrom (S (Z.to_nat duration)) duration interval majorInterval 0
  end.

(** [window.zoomLevel], counted in halves: [Some 3] is the level [1.5],
    [None] is [undefined].  Every level the page assigns is a multiple of
    one half. *)
Definition zoomLevel : Type := option Z.

(** [window.zoomLevel || 1] *)
Definition orOne (z : zoomLevel) : Z :=
  match z with
  | None => 2%Z
  | Some h => if bool_decide (h = 0%Z) then 2%Z else h
  end.

Record page : Type := {
  timeMarkings : bool;
  videoDuration : number;
  videoTrack : bool;
  audioTrack : bool;
  trackContents : nat          (* elements of class track-content *)
}.

(** [TimerModule.updateTimelineZoom()] *)
Definition updateTimelineZoom (p : page) (z : zoomLevel) : list effect :=
  createTimeMarkings (timeMarkings p) (videoDuration p) ++
  [UpdateTrimRegion] ++
  (if videoTrack p || audioTrack p
   then repeat (SetTrackWidth (toString (Int (50 * orOne z)) ++ lit "%"))
               (trackContents p)
   else []).

Inductive button : Type := ZoomIn | ZoomOut.

(** The click handlers of [zoomInBtn] and [zoomOutBtn]: the new level. *)
Definition press (b : button) (z : zoomLevel) : zoomLevel :=
  match b with
  | ZoomIn => Some (Z.min 10 (orOne z + 1))
  | ZoomOut => Some (Z.max 2 (orOne z - 1))
  end.

(** The handlers, with what they do to the page. *)
Definition click (p : page) (b : button) (z : zoomLevel)
  : zoomLevel * list effect :=
  let z' := press b z in (z', updateTimelineZoom p z').

Definition presses (bs : list button) (z : zoomLevel) : zoomLevel :=
  fold_left (fun z b => press b z) bs z.

(** The times of the markings, and the labels, in the order they are
    appended. *)
Definition markedTimes (es : list effect) : list Z :=
  flat_map (fun e => match e with AppendMarking _ t => [t] | _ => [] end) es.

Definition labels (es : list effect) : list (Z * jsstring) :=
  flat_map (fun e => match e with AppendLabel t s => [(t, s)] | _ => [] end) es.

(** The rounds the loop makes from [time] on. *)
Definition rounds (duration interval time : Z) : nat :=
  Z.to_nat ((duration - time) / interval + 1).

(** The levels between 1 and 5. *)
Definition inRange (z : zoomLevel) : Prop :=
  match z with
  | None => False
  | Some h => (2 <= h <= 10)%Z
  end.

End TimerTimeline.
(** * Properties *)

(** ** Time codes *)

Example formatTime_3725 :
  VideoEditorUtils.formatTime (JS.Int 3725) = JS.lit "01:02:05".
Proof. reflexivity. Qed.

Example formatTime_core_neg :
  VideoEditorCore.formatTime (JS.Int (-1)) = JS.lit "-1:-1:-1".
Proof. reflexivity. Qed.

Example parseTime_3725 :
  VideoEditorUtils.parseTime (JS.lit "01:02:05") = JS.Int 3725.
Proof. reflexivity. Qed.

Example parseTime_two_parts :
  VideoEditorCore.parseTime (JS.lit " 2:05x") = JS.Int 125.
Proof. reflexivity. Qed.

Example formatTime_400000 :
  TimerModule.formatTime (JS.Int 400000) = JS.lit "111:06:40".
Proof. reflexivity. Qed.

Section DecimalDigits.
Import JS.

Lemma isDigit_bounds c : isDigit c = true <-> 48 <= c <= 57.
Proof. unfold isDigit. rewrite andb_true_iff, !N.leb_le. tauto. Qed.

Lemma digitsValue_snoc s c :
  digitsValue (s ++ [c]) = 10 * digitsValue s + (c - 48).
Proof. unfold digitsValue. now rewrite fold_left_app. Qed.

Lemma digits_all_digits n : all_digits (digits n).
Proof.
  unfold all_digits. funelim (digits n).
  - constructor; [|constructor]. apply isDigit_bounds. lia.
  - apply Forall_app. split; [assumption|].
    constructor; [|constructor]. apply isDigit_bounds.
    pose proof (N.mod_upper_bound n 10 ltac:(lia)) as Hr.
    revert Hr. generalize (n mod 10). intros r Hr. lia.
Qed.

Lemma digits_nonempty n : digits n <> [].
Proof.
  funelim (digits n); [discriminate|].
  intros E. apply app_eq_nil in E. destruct E; discriminate.
Qed.

Lemma digitsValue_digits n : digitsValue (digits n) = n.
Proof.
  funelim (digits n).
  - unfold digitsValue. simpl. lia.
  - rewrite digitsValue_snoc.
    match goal with IH : digitsValue (digits _) = _ |- _ => rewrite IH end.
    pose proof (N.div_mod' n 10) as Hn. revert Hn.
    generalize (n mod 10), (n / 10). intros r q Hn. lia.
Qed.

Lemma digitsValue_zeros k s :
  digitsValue (repeat 48 k ++ s) = digitsValue s.
Proof.
  unfold digitsValue. rewrite fold_left_app. f_equal.
  induction k as [|k IH]; simpl; [reflexivity|exact IH].
Qed.

Lemma all_digits_padStart s : all_digits s -> all_digits (padStart 2 48 s).
Proof.
  intros H. unfold padStart, all_digits. apply Forall_app. split; [|exact H].
  apply Forall_forall. intros c Hc%list_elem_of_In%repeat_spec. now subst.
Qed.

Lemma takeDigits_all s : all_digits s -> takeDigits s = s.
Proof.
  induction 1 as [|c s Hc _ IH]; simpl; [reflexivity|].
  now rewrite Hc, IH.
Qed.

Lemma digit_not_space c : isDigit c = true -> isStrWhiteSpaceChar c = false.
Proof.
  rewrite isDigit_bounds. intros Hc.
  unfold isStrWhiteSpaceChar, isLineTerminator.
  repeat (apply orb_false_intro); try (apply N.eqb_neq; lia).
  apply andb_false_iff. left. apply N.leb_gt. lia.
Qed.

(** [parseInt] reads a non-empty digit string as its decimal value. *)
Lemma parseInt10_digits s :
  all_digits s -> s <> [] -> parseInt10 s = Int (Z.of_N (digitsValue s)).
Proof.
  intros Hall Hne. destruct s as [|c s]; [congruence|].
  pose proof (Forall_inv Hall) as Hc. simpl in Hc.
  unfold parseInt10. simpl trimStart. rewrite (digit_not_space c Hc).
  apply isDigit_bounds in Hc.
  assert (takeDigits (c :: s) = c :: s) as Htd by now apply takeDigits_all.
  assert ((c =? 45) = false) as H45 by (apply N.eqb_neq; lia).
  assert ((c =? 43) = false) as H43 by (apply N.eqb_neq; lia).
  cbn [startsWith]. rewrite (N.eqb_sym 45), (N.eqb_sym 43), H45, H43.
  cbn [andb orb].
  now rewrite Htd.
Qed.

(** A zero-padded decimal field parses back to the number it renders. *)
Lemma parseInt10_field (x : Z) :
  (0 <= x)%Z -> parseInt10 (padStart 2 48 (toString (Int x))) = Int x.
Proof.
  intros Hx. unfold toString.
  destruct (Z.ltb_spec x 0) as [?|_]; [lia|].
  rewrite parseInt10_digits.
  - unfold padStart. rewrite digitsValue_zeros, digitsValue_digits.
    f_equal. rewrite N2Z.inj_abs_N. lia.
  - apply all_digits_padStart, digits_all_digits.
  - unfold padStart. intros E. apply app_eq_nil in E.
    destruct E as [_ E]. now apply digits_nonempty in E.
Qed.

Lemma field_no_colon (x : Z) :
  (0 <= x)%Z -> Forall (fun c => c <> 58) (padStart 2 48 (toString (Int x))).
Proof.
  intros Hx. unfold toString.
  destruct (Z.ltb_spec x 0) as [?|_]; [lia|].
  eapply List.Forall_impl; [|apply all_digits_padStart, digits_all_digits].
  simpl. intros c Hc%isDigit_bounds. lia.
Qed.

End DecimalDigits.

Section Split.
Import JS.

Lemma split_nonempty sep s : split sep s <> [].
Proof.
  destruct s as [|c s]; simpl; [discriminate|].
  destruct (c =? sep); [discriminate|].
  destruct (split sep s); discriminate.
Qed.

Lemma split_no_sep sep s : Forall (fun c => c <> sep) s -> split sep s = [s].
Proof.
  induction 1 as [|c s Hc _ IH]; simpl; [reflexivity|].
  apply N.eqb_neq in Hc. now rewrite Hc, IH.
Qed.

Lemma split_app_sep sep a r :
  Forall (fun c => c <> sep) a -> split sep (a ++ sep :: r) = a :: split sep r.
Proof.
  induction 1 as [|c s Hc _ IH]; simpl.
  - now rewrite N.eqb_refl.
  - apply N.eqb_neq in Hc. now rewrite Hc, IH.
Qed.

End Split.

Section TimeRoundTrip.
Import JS.

Lemma fields_bounds s :
  (0 <= hours_of s /\ 0 <= minutes_of s < 60 /\ 0 <= seconds_of s < 60)%Z.
Proof.
  unfold hours_of, minutes_of, seconds_of.
  rewrite !Z.rem_mod_nonneg by lia.
  pose proof (Z.mod_pos_bound (Z.of_N s) 3600 ltac:(lia)).
  pose proof (Z.mod_pos_bound (Z.of_N s) 60 ltac:(lia)).
  repeat split; try lia.
  - apply Z.div_pos; lia.
  - apply Z.div_pos; lia.
  - apply Z.div_lt_upper_bound; lia.
Qed.

Lemma fields_sum s :
  (hours_of s * 3600 + minutes_of s * 60 + seconds_of s = Z.of_N s)%Z.
Proof.
  unfold hours_of, minutes_of, seconds_of.
  rewrite !Z.rem_mod_nonneg by lia.
  set (z := Z.of_N s).
  pose proof (Z.div_mod z 3600 ltac:(lia)) as E1.
  pose proof (Z.div_mod (z mod 3600) 60 ltac:(lia)) as E2.
  assert ((z mod 3600) mod 60 = z mod 60)%Z as E3.
  { rewrite <- (Z.mod_mod_divide z 3600 60); [reflexivity|].
    exists 60%Z. reflexivity. }
  rewrite E3 in E2. lia.
Qed.

Lemma hhmmss_nonempty h m c : hhmmss h m c <> [].
Proof.
  unfold hhmmss. intros E.
  apply app_eq_nil in E as [_ E]. simpl in E. discriminate.
Qed.

(** Splitting a rendered time code at the colons gives back its fields. *)
Lemma split_hhmmss (h m c : Z) :
  (0 <= h)%Z -> (0 <= m)%Z -> (0 <= c)%Z ->
  List.map parseInt10 (split 58 (hhmmss (Int h) (Int m) (Int c))) =
  [Int h; Int m; Int c].
Proof.
  intros Hh Hm Hc. unfold hhmmss. cbn [app].
  rewrite split_app_sep by now apply field_no_colon.
  rewrite split_app_sep by now apply field_no_colon.
  rewrite split_no_sep by now apply field_no_colon.
  cbn [List.map]. now rewrite !parseInt10_field.
Qed.

Lemma formatTime_fields_guarded s :
  VideoEditorUtils.formatTime (Int (Z.of_N s)) =
  hhmmss (Int (hours_of s)) (Int (minutes_of s)) (Int (seconds_of s)).
Proof.
  unfold VideoEditorUtils.formatTime. cbn [Math.isNaN Math.max0].
  rewrite Z.max_r by lia. reflexivity.
Qed.

Lemma parseTime_hhmmss_guarded (h m c : Z) :
  (0 <= h)%Z -> (0 <= m)%Z -> (0 <= c)%Z ->
  VideoEditorUtils.parseTime (hhmmss (Int h) (Int m) (Int c)) =
  Int (h * 3600 + m * 60 + c).
Proof.
  intros Hh Hm Hc. unfold VideoEditorUtils.parseTime.
  destruct (hhmmss (Int h) (Int m) (Int c)) eqn:E.
  - now apply hhmmss_nonempty in E.
  - rewrite <- E, split_hhmmss by assumption. reflexivity.
Qed.




End TimeRoundTrip.

(** ** The fetch interceptor *)

Section FetchExamples.
Import JS FetchInterceptor.

Example rewrite_production :
  rewriteUrl (lit "https://mosaicmaster-production.up.railway.app/api/convert/") =
  lit "/api/convert/".
Proof. vm_compute. reflexivity. Qed.

Example rewrite_other_host :
  rewriteUrl (lit "http://localhost:8000/api/video/trim") = lit "/api/video/trim".
Proof. vm_compute. reflexivity. Qed.

Example rewrite_no_scheme :
  rewriteUrl (lit "api/ocr/") = lit "api/ocr/".
Proof. vm_compute. reflexivity. Qed.

Example rewrite_no_scheme_nested :
  rewriteUrl (lit "v1/api/ocr/") = lit "/api/ocr/".
Proof. vm_compute. reflexivity. Qed.

Example rewrite_empty_host :
  rewriteUrl (lit "http:///api/x") = lit "/api/x".
Proof. vm_compute. reflexivity. Qed.

Example rewrite_newline_host :
  rewriteUrl (lit "http://a" ++ [10] ++ lit "b/api/x") =
  lit "/http://a" ++ [10] ++ lit "b/api/x".
Proof. vm_compute. reflexivity. Qed.

Example rewrite_nested_origin :
  rewriteUrl (lit "http://example.com/api/http://mosaicmaster-production.up.railway.app/x") =
  lit "/api//x".
Proof. vm_compute. reflexivity. Qed.

End FetchExamples.

Section StringLemmas.
Import JS.

Lemma startsWith_prefix (p s : jsstring) : startsWith p s = true <-> exists t, s = p ++ t.
Proof.
  revert s. induction p as [|a p IH]; intros s; simpl.
  - split; [eauto|reflexivity].
  - destruct s as [|b s].
    + split; [discriminate|]. intros [t Ht]. discriminate.
    + rewrite andb_true_iff, N.eqb_eq, IH. split.
      * intros [-> [t ->]]. eauto.
      * intros [t Ht]. injection Ht as -> ->. eauto.
Qed.

Lemma startsWith_app (p t : jsstring) : startsWith p (p ++ t) = true.
Proof. apply startsWith_prefix. eauto. Qed.

Lemma includes_of_startsWith (p s : jsstring) :
  startsWith p s = true -> includes p s = true.
Proof. destruct s; simpl; intros ->; reflexivity. Qed.

Lemma startsWith_includes (a p s : jsstring) :
  startsWith (a ++ p) s = true -> includes p s = true.
Proof.
  intros [t ->]%startsWith_prefix. rewrite <- app_assoc.
  induction a as [|c a IH]; simpl.
  - apply includes_of_startsWith, startsWith_app.
  - rewrite IH. apply orb_true_r.
Qed.

Lemma includes_app_r (p a s : jsstring) : includes p s = true -> includes p (a ++ s) = true.
Proof.
  intros H. induction a as [|c a IH]; simpl; [exact H|].
  rewrite IH. apply orb_true_r.
Qed.

Lemma includes_cons_false (p : jsstring) c (s : jsstring) :
  includes p (c :: s) = false -> includes p s = false.
Proof. simpl. intros [_ H]%orb_false_iff. exact H. Qed.

(** A unit other than [/], then anything: where the first [/] sits is
    determined by the string. *)
Lemma first_slash_unique (a b x y : jsstring) :
  Forall (fun c => c <> 47) a -> Forall (fun c => c <> 47) b ->
  a ++ 47 :: x = b ++ 47 :: y -> a = b /\ x = y.
Proof.
  intros Ha. revert b. induction Ha as [|c a Hc _ IH]; intros b Hb E.
  - destruct Hb as [|d b Hd _]; simpl in E.
    + injection E as ->. auto.
    + injection E as E _. congruence.
  - destruct Hb as [|d b Hd Hb]; simpl in E.
    + injection E as E _. congruence.
    + injection E as -> E. destruct (IH b Hb E) as [-> ->]. auto.
Qed.

Lemma prefix_before_slash (p a x : jsstring) :
  Forall (fun c => c <> 47) p ->
  startsWith p (a ++ 47 :: x) = true -> exists t, a = p ++ t.
Proof.
  intros Hp. revert a. induction Hp as [|c p Hc _ IH]; intros a H.
  - eauto.
  - destruct a as [|d a]; simpl in H.
    + apply andb_true_iff in H as [H%N.eqb_eq _]. congruence.
    + apply andb_true_iff in H as [->%N.eqb_eq H].
      destruct (IH a H) as [t ->]. eauto.
Qed.

End StringLemmas.

Section InterceptorLemmas.
Import JS FetchInterceptor.

Lemma hostUnits_noSlash s : hostUnits s -> noSlash s.
Proof. apply List.Forall_impl. tauto. Qed.

Lemma hostUnits_app_r a b : hostUnits (a ++ b) -> hostUnits b.
Proof. intros H. apply Forall_app in H. tauto. Qed.

Lemma noSlash_domain : noSlash productionDomain.
Proof. vm_compute. repeat constructor; discriminate. Qed.

Lemma match_shape s n :
  matchProductionOrigin s = Some n ->
  exists t, s = lit "http:" ++ 47 :: 47 :: t \/ s = lit "https:" ++ 47 :: 47 :: t.
Proof.
  unfold matchProductionOrigin.
  destruct (startsWith originHttps s) eqn:E1.
  - intros _. apply startsWith_prefix in E1 as [t ->].
    exists (productionDomain ++ t). right. reflexivity.
  - destruct (startsWith originHttp s) eqn:E2; [|discriminate].
    intros _. apply startsWith_prefix in E2 as [t ->].
    exists (productionDomain ++ t). left. reflexivity.
Qed.

Lemma match_head c s : c <> 104 -> matchProductionOrigin (c :: s) = None.
Proof.
  intros Hc. destruct (matchProductionOrigin (c :: s)) eqn:E; [|reflexivity].
  apply match_shape in E as [t [E|E]]; vm_compute in E; injection E as E _; congruence.
Qed.

Lemma match_single_slash a c r :
  noSlash a -> c <> 47 -> matchProductionOrigin (a ++ 47 :: c :: r) = None.
Proof.
  intros Ha Hc.
  destruct (matchProductionOrigin (a ++ 47 :: c :: r)) eqn:E; [|reflexivity].
  apply match_shape in E as [t [E|E]];
    apply first_slash_unique in E as [_ E]; try assumption;
    try (injection E as E _; congruence);
    vm_compute; repeat constructor; discriminate.
Qed.

Lemma match_includes s n :
  matchProductionOrigin s = Some n -> includes productionDomain s = true.
Proof.
  unfold matchProductionOrigin.
  destruct (startsWith originHttps s) eqn:E1.
  - intros _. now apply startsWith_includes in E1.
  - destruct (startsWith originHttp s) eqn:E2; [|discriminate].
    intros _. now apply startsWith_includes in E2.
Qed.

Lemma replaceOrigin_skip k s : replaceOrigin k s = replaceOrigin 0 (drop k s).
Proof.
  revert s. induction k as [|k IH]; intros s.
  - now rewrite drop_0.
  - destruct s as [|c s]; [reflexivity|]. simpl. apply IH.
Qed.

Lemma strip_nomatch c s :
  matchProductionOrigin (c :: s) = None ->
  stripProductionOrigin (c :: s) = c :: stripProductionOrigin s.
Proof. unfold stripProductionOrigin. simpl replaceOrigin. now intros ->. Qed.

Lemma strip_match s n :
  matchProductionOrigin s = Some (S n) ->
  stripProductionOrigin s = stripProductionOrigin (drop (S n) s).
Proof.
  unfold stripProductionOrigin. destruct s as [|c s].
  - reflexivity.
  - simpl replaceOrigin. intros ->. simpl. apply replaceOrigin_skip.
Qed.

Lemma strip_head c s :
  c <> 104 -> stripProductionOrigin (c :: s) = c :: stripProductionOrigin s.
Proof. intros Hc. now apply strip_nomatch, match_head. Qed.

Lemma strip_not_included s :
  includes productionDomain s = false -> stripProductionOrigin s = s.
Proof.
  induction s as [|c s IH]; intros H; [reflexivity|].
  rewrite strip_nomatch.
  - f_equal. apply IH. now apply includes_cons_false in H.
  - destruct (matchProductionOrigin (c :: s)) eqn:E; [|reflexivity].
    apply match_includes in E. congruence.
Qed.

Lemma stripStep_strip s : stripStep s = stripProductionOrigin s.
Proof.
  unfold stripStep. destruct (includes productionDomain s) eqn:E; [reflexivity|].
  symmetry. now apply strip_not_included.
Qed.

(** Nothing is stripped inside a host and the [/api/] behind it. *)
Lemma strip_host_api h r :
  noSlash h ->
  stripProductionOrigin (h ++ lit "/api/" ++ r) =
  h ++ lit "/api/" ++ stripProductionOrigin r.
Proof.
  intros Hh. change (lit "/api/" ++ r) with (47 :: 97 :: 112 :: 105 :: 47 :: r).
  change (lit "/api/" ++ stripProductionOrigin r)
    with (47 :: 97 :: 112 :: 105 :: 47 :: stripProductionOrigin r).
  induction Hh as [|c h Hc Hh IH].
  - simpl. now rewrite !strip_head by discriminate.
  - simpl. rewrite strip_nomatch, IH; [reflexivity|].
    apply (match_single_slash (c :: h)); [now constructor|discriminate].
Qed.

Lemma afterScheme_single_slash a c r :
  noSlash a -> c <> 47 -> afterScheme (a ++ 47 :: c :: r) = None.
Proof.
  intros Ha Hc. unfold afterScheme.
  destruct (startsWith (lit "https://") (a ++ 47 :: c :: r)) eqn:E1.
  { apply startsWith_prefix in E1 as [t E].
    change (lit "https://" ++ t) with (lit "https:" ++ 47 :: 47 :: t) in E.
    apply first_slash_unique in E as [_ E]; try assumption.
    - injection E as E _. congruence.
    - vm_compute. repeat constructor; discriminate. }
  destruct (startsWith (lit "http://") (a ++ 47 :: c :: r)) eqn:E2; [|reflexivity].
  apply startsWith_prefix in E2 as [t E].
  change (lit "http://" ++ t) with (lit "http:" ++ 47 :: 47 :: t) in E.
  apply first_slash_unique in E as [_ E]; try assumption.
  - injection E as E _. congruence.
  - vm_compute. repeat constructor; discriminate.
Qed.

Lemma dotStarThen_host h p r :
  hostUnits h -> dotStarThen p (h ++ p ++ r) = true.
Proof.
  induction 1 as [|c h [_ Hc] _ IH]; simpl.
  - destruct (p ++ r) eqn:E; simpl; rewrite <- ?E, startsWith_app; reflexivity.
  - rewrite Hc, IH. simpl. apply orb_true_r.
Qed.

Lemma afterNonSlashes_host h r :
  noSlash h -> afterNonSlashes (h ++ 47 :: r) = 47 :: r.
Proof.
  induction 1 as [|c h Hc _ IH]; simpl; [reflexivity|].
  apply N.eqb_neq in Hc. now rewrite Hc.
Qed.

Lemma afterLazy_host h r :
  hostUnits h ->
  afterLazyDotThen (lit "/api/") (h ++ lit "/api/" ++ r) = Some r.
Proof.
  induction 1 as [|c h [Hs Hc] _ IH].
  - reflexivity.
  - cbn [app afterLazyDotThen]. rewrite Hc, IH.
    change (lit "/api/") with (47 :: lit "api/"). cbn [startsWith].
    assert ((47 =? c) = false) as -> by (apply N.eqb_neq; congruence).
    reflexivity.
Qed.

(** The last two steps on [w ++ "/api/" ++ r] when [w] is an absolute
    origin [scheme://host]. *)
Lemma relative_force_origin scheme h r :
  scheme = lit "http" \/ scheme = lit "https" ->
  h <> [] -> hostUnits h ->
  forceStep (relativeStep (scheme ++ lit "://" ++ h ++ lit "/api/" ++ r)) =
  lit "/api/" ++ r.
Proof.
  intros Hs Hne Hh.
  assert (afterScheme (scheme ++ lit "://" ++ h ++ lit "/api/" ++ r) =
          Some (h ++ lit "/api/" ++ r)) as Ea
    by (destruct Hs as [-> | ->]; reflexivity).
  unfold relativeStep, matchesAbsoluteApi. rewrite Ea.
  rewrite dotStarThen_host by assumption.
  unfold dropOrigin. rewrite Ea.
  destruct h as [|c h]; [congruence|].
  pose proof (Forall_inv Hh) as [Hc _]. pose proof (Forall_inv_tail Hh) as Hh'.
  cbn [app]. apply N.eqb_neq in Hc. rewrite Hc.
  change (lit "/api/" ++ r) with (47 :: lit "api/" ++ r).
  rewrite afterNonSlashes_host by now apply hostUnits_noSlash.
  reflexivity.
Qed.

(** The last two steps on [x ++ "/api/" ++ r] when [x] is what is left of a
    host behind a stripped production origin. *)
Lemma relative_force_remainder x r :
  hostUnits x ->
  forceStep (relativeStep (x ++ lit "/api/" ++ r)) = lit "/api/" ++ r.
Proof.
  intros Hx. destruct x as [|c x]; [reflexivity|].
  pose proof (Forall_inv Hx) as [Hc _].
  assert (relativeStep ((c :: x) ++ lit "/api/" ++ r) = (c :: x) ++ lit "/api/" ++ r)
    as ->.
  { unfold relativeStep, matchesAbsoluteApi.
    change (lit "/api/" ++ r) with (47 :: 97 :: lit "pi/" ++ r).
    rewrite afterScheme_single_slash;
      [reflexivity|now apply hostUnits_noSlash|discriminate]. }
  unfold forceStep.
  rewrite includes_app_r
    by (apply includes_of_startsWith, startsWith_app).
  assert (startsWith (lit "/") ((c :: x) ++ lit "/api/" ++ r) = false) as ->.
  { change (lit "/") with [47]. cbn [app startsWith].
    assert ((47 =? c) = false) as -> by (apply N.eqb_neq; congruence).
    reflexivity. }
  cbn [andb negb]. unfold replaceUpToApi. now rewrite afterLazy_host.
Qed.

(** The whole rewriting of an absolute [/api/] address. *)
Lemma rewriteUrl_absolute_api scheme h r :
  scheme = lit "http" \/ scheme = lit "https" ->
  h <> [] -> hostUnits h ->
  rewriteUrl (scheme ++ lit "://" ++ h ++ lit "/api/" ++ r) =
  lit "/api/" ++ stripProductionOrigin r.
Proof.
  intros Hs Hne Hh. unfold rewriteUrl. rewrite stripStep_strip.
  pose proof (hostUnits_noSlash _ Hh) as Hns.
  set (tl := h ++ lit "/api/" ++ r).
  assert (exists n,
    matchProductionOrigin (scheme ++ lit "://" ++ tl) =
      (if startsWith productionDomain tl then Some (S n) else None) /\
    drop (S n) (scheme ++ lit "://" ++ tl) = drop (length productionDomain) tl /\
    stripProductionOrigin (scheme ++ lit "://" ++ tl) =
      (if startsWith productionDomain tl
       then stripProductionOrigin (drop (S n) (scheme ++ lit "://" ++ tl))
       else scheme ++ lit "://" ++ stripProductionOrigin tl))
    as (n & Em & Ed & Es).
  { destruct Hs as [-> | ->].
    - exists (pred (length originHttp)).
      assert (matchProductionOrigin (lit "http" ++ lit "://" ++ tl) =
              if startsWith productionDomain tl
              then Some (S (pred (length originHttp))) else None) as Em.
      { unfold matchProductionOrigin, originHttps, originHttp.
        change (startsWith (lit "https://" ++ productionDomain)
                  (lit "http" ++ lit "://" ++ tl)) with false.
        change (startsWith (lit "http://" ++ productionDomain)
                  (lit "http" ++ lit "://" ++ tl))
          with (startsWith productionDomain tl).
        reflexivity. }
      split; [exact Em|]. split; [reflexivity|].
      destruct (startsWith productionDomain tl) eqn:E.
      + now apply strip_match.
      + change (lit "http" ++ lit "://" ++ tl)
          with (104 :: 116 :: 116 :: 112 :: 58 :: 47 :: 47 :: tl).
        rewrite strip_nomatch by exact Em.
        now rewrite !strip_head by discriminate.
    - exists (pred (length originHttps)).
      assert (matchProductionOrigin (lit "https" ++ lit "://" ++ tl) =
              if startsWith productionDomain tl
              then Some (S (pred (length originHttps))) else None) as Em.
      { unfold matchProductionOrigin, originHttps, originHttp.
        change (startsWith (lit "https://" ++ productionDomain)
                  (lit "https" ++ lit "://" ++ tl))
          with (startsWith productionDomain tl).
        change (startsWith (lit "http://" ++ productionDomain)
                  (lit "https" ++ lit "://" ++ tl)) with false.
        destruct (startsWith productionDomain tl); reflexivity. }
      split; [exact Em|]. split; [reflexivity|].
      destruct (startsWith productionDomain tl) eqn:E.
      + now apply strip_match.
      + change (lit "https" ++ lit "://" ++ tl)
          with (104 :: 116 :: 116 :: 112 :: 115 :: 58 :: 47 :: 47 :: tl).
        rewrite strip_nomatch by exact Em.
        now rewrite !strip_head by discriminate. }
  rewrite Es. destruct (startsWith productionDomain tl) eqn:E.
  - (* the host begins with the production domain *)
    unfold tl in E. change (lit "/api/" ++ r) with (47 :: lit "api/" ++ r) in E.
    apply prefix_before_slash in E as [x ->]; [|apply noSlash_domain].
    rewrite Ed. unfold tl. rewrite <- app_assoc, drop_app_length.
    rewrite strip_host_api
      by (apply hostUnits_noSlash; eapply hostUnits_app_r; exact Hh).
    apply relative_force_remainder. eapply hostUnits_app_r; exact Hh.
  - unfold tl. rewrite strip_host_api by assumption.
    now apply relative_force_origin.
Qed.

End InterceptorLemmas.

Section InterceptorTheorems.
Import JS FetchInterceptor.
Context {Obj Options Response : Type}.
Variable originalFetch : resource Obj -> Options -> Response.

(** C10, as amended.  For every string URL [scheme://host/api/rest] with
    scheme [http] or [https] and a non-empty host (units other than [/] and
    line terminators), the overriding [fetch] calls the original [fetch]
    with the relative URL [/api/] followed by [rest] in which every
    occurrence of the production origin
    ([http(s)://mosaicmaster-production.up.railway.app]) has been removed;
    when [rest] does not mention the production domain it is passed on
    unchanged. *)
Theorem fetch_absolute_api_made_relative
    (scheme host rest : jsstring) (options : Options) :
  scheme = lit "http" \/ scheme = lit "https" ->
  host <> [] ->
  hostUnits host ->
  fetch originalFetch
    (UrlString (scheme ++ lit "://" ++ host ++ lit "/api/" ++ rest)) options =
  originalFetch (UrlString (lit "/api/" ++ stripProductionOrigin rest)) options
  /\ startsWith (lit "/") (lit "/api/" ++ stripProductionOrigin rest) = true
  /\ (includes productionDomain rest = false -> stripProductionOrigin rest = rest).
Proof.
  intros Hs Hne Hh. split; [|split].
  - unfold fetch. now rewrite rewriteUrl_absolute_api.
  - reflexivity.
  - apply strip_not_included.
Qed.

End InterceptorTheorems.

Section InterceptorInstances.
Import JS FetchInterceptor.

(** The amended statement at
    [https://mosaicmaster-production.up.railway.app/api/convert/], with an
    original [fetch] that records the address it is called with. *)
Lemma fetch_absolute_api_made_relative_witness :
  fetch (Obj := unit) (fun u (_ : unit) => u)
    (UrlString (lit "https" ++ lit "://" ++
                lit "mosaicmaster-production.up.railway.app" ++
                lit "/api/" ++ lit "convert/")) tt =
  UrlString (lit "/api/" ++ stripProductionOrigin (lit "convert/")).
Proof.
  refine (proj1 (fetch_absolute_api_made_relative (fun u _ => u)
            (lit "https") (lit "mosaicmaster-production.up.railway.app")
            (lit "convert/") tt _ _ _)).
  - right. reflexivity.
  - discriminate.
  - vm_compute. repeat constructor; discriminate.
Defined.

(** C10, as stated, fails: the address
    [http://example.com/api/http://mosaicmaster-production.up.railway.app/x]
    has the claimed form, yet what is dispatched is [/api//x], not [/api/]
    followed by the original remainder. *)
Lemma fetch_api_path_not_preserved :
  ~ (forall scheme host rest : jsstring,
       scheme = lit "http" \/ scheme = lit "https" ->
       host <> [] -> hostUnits host ->
       fetch (Obj := unit) (fun u (_ : unit) => u)
         (UrlString (scheme ++ lit "://" ++ host ++ lit "/api/" ++ rest)) tt =
       UrlString (lit "/api/" ++ rest)).
Proof.
  intros H.
  specialize (H (lit "http") (lit "example.com")
                (lit "http://mosaicmaster-production.up.railway.app/x")).
  assert (fetch (Obj := unit) (fun u (_ : unit) => u)
            (UrlString (lit "http" ++ lit "://" ++ lit "example.com" ++ lit "/api/" ++
               lit "http://mosaicmaster-production.up.railway.app/x")) tt =
          UrlString (lit "/api//x")) as E by (vm_compute; reflexivity).
  rewrite E in H.
  assert (UrlString (Obj := unit) (lit "/api//x") <>
          UrlString (lit "/api/" ++ lit "http://mosaicmaster-production.up.railway.app/x"))
    as Hne by (vm_compute; discriminate).
  apply Hne, H.
  - left. reflexivity.
  - discriminate.
  - vm_compute. repeat constructor; discriminate.
Qed.

End InterceptorInstances.

(** ** The progress channel, client side *)

Section ProgressChannel.
Import JS ProgressClient.

Variable JSON_parse : jsstring -> option json.








End ProgressChannel.

Section ProgressEvents.
Import JS ProgressClient.

Variable JSON_parse : jsstring -> option json.


End ProgressEvents.

Section ProgressInstances.
Import JS ProgressClient.






End ProgressInstances.

(** ** The stream-session core *)

Section RegistryAPI.
Import StreamCore.

Lemma transition_ok_inv reg i expected next mutator reg' :
  transition reg i expected next mutator = inr reg' ->
  exists s, sessions reg !! i = Some s /\ state s = expected /\
            edge expected next = true /\
            reg' = mkRegistry (<[i := commit s next (mutator s)]> (sessions reg))
                              (nextId reg).
Proof.
  unfold transition. destruct (sessions reg !! i) as [s|]; [|discriminate].
  case_bool_decide; [|discriminate].
  destruct (edge expected next) eqn:E; [|discriminate].
  intros [= <-]. eauto.
Qed.


Lemma edge_leaves_nonterminal a b : edge a b = true -> terminal a = false.
Proof. destruct a, b; simpl; congruence. Qed.


Lemma oneSession_lookup : sessions oneSession !! 0 = Some freshSession.
Proof. vm_compute. reflexivity. Qed.


End RegistryAPI.

Section Idempotence.
Import StreamCore.

Lemma equivalentTo_spec url s :
  equivalentTo url s = true <-> sourceURL s = url /\ terminal (state s) = false.
Proof.
  unfold equivalentTo. rewrite andb_true_iff, bool_decide_eq_true, negb_true_iff.
  tauto.
Qed.

Lemma findEquivalent_Some_inv reg url i :
  findEquivalent reg url = Some i ->
  exists s, sessions reg !! i = Some s /\ sourceURL s = url /\
            terminal (state s) = false.
Proof.
  unfold findEquivalent.
  destruct (map_to_list _) as [|[j s] l] eqn:E; [discriminate|].
  simpl. intros [= <-].
  assert ((j, s) ∈ map_to_list
            (filter (fun kv : N * Session => Is_true (equivalentTo url kv.2))
                    (sessions reg))) as Hin by (rewrite E; left).
  apply elem_of_map_to_list, map_lookup_filter_Some in Hin as [Hs Heq].
  simpl in Heq. apply Is_true_eq_true, equivalentTo_spec in Heq.
  exists s. tauto.
Qed.

Lemma findEquivalent_None reg url j t :
  findEquivalent reg url = None ->
  sessions reg !! j = Some t -> sourceURL t = url -> terminal (state t) = true.
Proof.
  unfold findEquivalent.
  destruct (map_to_list _) as [|[k s] l] eqn:E; [|discriminate].
  intros _ Ht Hu. apply map_to_list_empty_iff in E.
  destruct (terminal (state t)) eqn:Hterm; [reflexivity|].
  assert (filter (fun kv : N * Session => Is_true (equivalentTo url kv.2))
                 (sessions reg) !! j = Some t) as Hin.
  { apply map_lookup_filter_Some. split; [exact Ht|].
    simpl. apply Is_true_eq_left, equivalentTo_spec. auto. }
  rewrite E, lookup_empty in Hin. discriminate.
Qed.

Lemma findEquivalent_Some reg url i s :
  oneActivePerSource reg ->
  sessions reg !! i = Some s -> sourceURL s = url -> terminal (state s) = false ->
  findEquivalent reg url = Some i.
Proof.
  intros Hone Hs Hu Hterm. unfold findEquivalent.
  assert (filter (fun kv : N * Session => Is_true (equivalentTo url kv.2))
                 (sessions reg) = {[ i := s ]}) as ->.
  { apply map_eq. intros j. destruct (decide (j = i)) as [->|Hne].
    - rewrite lookup_singleton_eq. apply map_lookup_filter_Some.
      split; [exact Hs|]. simpl. apply Is_true_eq_left, equivalentTo_spec. auto.
    - rewrite lookup_singleton_ne by congruence.
      apply map_lookup_filter_None. destruct (sessions reg !! j) as [t|] eqn:Ht.
      + right. intros t' [= <-]. simpl. intros Heq.
        apply Is_true_eq_true, equivalentTo_spec in Heq as [Hu' Hterm'].
        apply Hne. apply (Hone j i t s); congruence.
      + left. reflexivity. }
  now rewrite map_to_list_singleton.
Qed.

Lemma invariants_empty : wellKeyed emptyRegistry /\ oneActivePerSource emptyRegistry.
Proof.
  split.
  - intros i s H. simpl in H. now rewrite lookup_empty in H.
  - intros i j s t H. simpl in H. now rewrite lookup_empty in H.
Qed.

Lemma invariants_step reg reg' :
  ApiStep reg reg' ->
  wellKeyed reg /\ oneActivePerSource reg ->
  wellKeyed reg' /\ oneActivePerSource reg'.
Proof.
  intros Hstep [Hkey Hone]. destruct Hstep as [reg url plat now|reg i e n m reg' Ht|reg i].
  - (* create *)
    unfold create. destruct (findEquivalent reg url) as [k|] eqn:Hfind; simpl; [auto|].
    assert (sessions reg !! nextId reg = None) as Hfresh.
    { destruct (sessions reg !! nextId reg) as [s|] eqn:E; [|reflexivity].
      apply Hkey in E as [_ E]. lia. }
    split.
    + intros i s. simpl. rewrite lookup_insert.
      case_decide as Hi.
      * intros [= <-]. subst i. simpl. split; [reflexivity|lia].
      * intros H. apply Hkey in H as [? ?]. split; [assumption|lia].
    + intros i j s t. simpl. rewrite !lookup_insert.
      case_decide as Hi; case_decide as Hj.
      * congruence.
      * intros [= <-] Ht Hu _ Hterm. simpl in Hu.
        rewrite (findEquivalent_None reg url j t Hfind Ht) in Hterm by congruence.
        discriminate.
      * intros Hs [= <-] Hu Hterm _. simpl in Hu.
        rewrite (findEquivalent_None reg url i s Hfind Hs) in Hterm by congruence.
        discriminate.
      * apply Hone.
  - (* transition *)
    apply transition_ok_inv in Ht as (s0 & Hs0 & He & Hedge & ->).
    pose proof (edge_leaves_nonterminal _ _ Hedge) as Hnt. rewrite <- He in Hnt.
    split.
    + intros k s. simpl. rewrite lookup_insert. case_decide as Hk.
      * intros [= <-]. subst k. simpl. now apply Hkey.
      * apply Hkey.
    + intros k j s t. simpl. rewrite !lookup_insert.
      case_decide as Hk; case_decide as Hj.
      * congruence.
      * intros [= <-] Ht Hu _ Hterm. simpl in Hu. subst k.
        apply (Hone i j s0 t); assumption.
      * intros Hs [= <-] Hu Hterm _. simpl in Hu. subst j.
        apply (Hone k i s s0); assumption.
      * apply Hone.
  - (* reclaim *)
    unfold reclaim. destruct (sessions reg !! i) as [s0|] eqn:Hs0; [|auto].
    destruct (terminal (state s0)); [|auto]. split.
    + intros k s. simpl. intros H. apply lookup_delete_Some in H as [_ H].
      now apply Hkey.
    + intros k j s t. simpl. intros Hs Ht.
      apply lookup_delete_Some in Hs as [_ Hs].
      apply lookup_delete_Some in Ht as [_ Ht].
      now apply Hone.
Qed.

Lemma invariants_steps reg reg' :
  rtc ApiStep reg reg' ->
  wellKeyed reg /\ oneActivePerSource reg ->
  wellKeyed reg' /\ oneActivePerSource reg'.
Proof. induction 1; eauto using invariants_step. Qed.

Lemma invariants_reachable reg :
  ApiReachable reg -> wellKeyed reg /\ oneActivePerSource reg.
Proof. intros H. eapply invariants_steps; [exact H|apply invariants_empty]. Qed.

(** A stored session keeps its place and its source: whatever is found
    under an id that was already handed out is the session that was there. *)
Lemma step_keeps_source reg reg' :
  ApiStep reg reg' -> wellKeyed reg ->
  (nextId reg <= nextId reg')%N /\
  forall i s', (i < nextId reg)%N -> sessions reg' !! i = Some s' ->
               exists s, sessions reg !! i = Some s /\ sourceURL s = sourceURL s'.
Proof.
  intros Hstep Hkey. destruct Hstep as [reg url plat now|reg i e n m reg' Ht|reg i].
  - unfold create. destruct (findEquivalent reg url); simpl.
    + split; [lia|]. eauto.
    + split; [lia|]. intros i s' Hi. rewrite lookup_insert.
      case_decide; [lia|]. eauto.
  - apply transition_ok_inv in Ht as (s0 & Hs0 & _ & _ & ->). simpl.
    split; [lia|]. intros k s' _. rewrite lookup_insert. case_decide as Hk.
    + intros [= <-]. subst k. eauto.
    + eauto.
  - unfold reclaim. destruct (sessions reg !! i) as [s0|]; [|split; [lia|eauto]].
    destruct (terminal (state s0)); [|split; [lia|eauto]]. simpl.
    split; [lia|]. intros k s' _ H. apply lookup_delete_Some in H as [_ H]. eauto.
Qed.

Lemma steps_keep_source reg reg' :
  rtc ApiStep reg reg' -> wellKeyed reg /\ oneActivePerSource reg ->
  forall i s', (i < nextId reg)%N -> sessions reg' !! i = Some s' ->
               exists s, sessions reg !! i = Some s /\ sourceURL s = sourceURL s'.
Proof.
  induction 1 as [reg|reg reg1 reg2 Hstep Hrest IH]; intros Hinv i s' Hi Hs'.
  - eauto.
  - pose proof (invariants_step _ _ Hstep Hinv) as Hinv1.
    destruct (step_keeps_source _ _ Hstep (proj1 Hinv)) as [Hle Hkeep].
    destruct (IH Hinv1 i s' ltac:(lia) Hs') as (s1 & Hs1 & Hu1).
    destruct (Hkeep i s1 Hi Hs1) as (s & Hs & Hu). exists s. split; congruence.
Qed.

Lemma create_returns_session reg url plat now :
  wellKeyed reg ->
  let '(i, reg1) := create reg url plat now in
  (i < nextId reg1)%N /\
  exists s, sessions reg1 !! i = Some s /\ sourceURL s = url /\
            terminal (state s) = false.
Proof.
  intros Hkey. unfold create. destruct (findEquivalent reg url) as [k|] eqn:Hfind.
  - apply findEquivalent_Some_inv in Hfind as (s & Hs & Hu & Hterm).
    split; [now apply Hkey in Hs|]. eauto.
  - simpl. split; [lia|]. eexists. rewrite lookup_insert_eq. eauto.
Qed.

(** C2.  In every registry reached through the API, a start request for the
    source of a stored non-terminal session returns that session's id and
    creates nothing.  In particular, after a first [create] has returned
    [i1], whatever calls follow, a second [create] with the same source (and
    any platform) returns [i1] again as long as session [i1] is still there
    and non-terminal. *)
Theorem create_idempotent
    (reg : Registry) (url plat : string) (now : N) (i : N) (s : Session) :
  ApiReachable reg ->
  sessions reg !! i = Some s ->
  sourceURL s = url ->
  terminal (state s) = false ->
  create reg url plat now = (i, reg) /\
  (forall reg0 plat1 now1 reg2 plat2 now2 t,
      ApiReachable reg0 ->
      rtc ApiStep (create reg0 url plat1 now1).2 reg2 ->
      sessions reg2 !! (create reg0 url plat1 now1).1 = Some t ->
      terminal (state t) = false ->
      (create reg2 url plat2 now2).1 = (create reg0 url plat1 now1).1 /\
      (create reg2 url plat2 now2).2 = reg2).
Proof.
  assert (forall reg url plat now i s,
    ApiReachable reg -> sessions reg !! i = Some s -> sourceURL s = url ->
    terminal (state s) = false -> create reg url plat now = (i, reg)) as Hgen.
  { clear. intros reg url plat now i s Hreach Hs Hu Hterm.
    destruct (invariants_reachable reg Hreach) as [_ Hone].
    unfold create. now rewrite (findEquivalent_Some reg url i s Hone Hs Hu Hterm). }
  intros Hreach Hs Hu Hterm. split; [now apply (Hgen reg url plat now i s)|].
  intros reg0 plat1 now1 reg2 plat2 now2 t Hreach0 Hsteps Ht Hterm2.
  pose proof (invariants_reachable reg0 Hreach0) as Hinv0.
  assert (ApiStep reg0 (create reg0 url plat1 now1).2) as Hstep1 by constructor.
  pose proof (invariants_step _ _ Hstep1 Hinv0) as Hinv1.
  pose proof (create_returns_session reg0 url plat1 now1 (proj1 Hinv0)) as Hc.
  destruct (create reg0 url plat1 now1) as [i1 reg1] eqn:Ec. simpl in *.
  destruct Hc as (Hlt & s1 & Hs1 & Hu1 & _).
  destruct (steps_keep_source reg1 reg2 Hsteps Hinv1 i1 t Hlt Ht) as (s1' & Hs1' & Hu').
  assert (sourceURL t = url) as Hut by congruence.
  assert (ApiReachable reg2) as Hreach2.
  { unfold ApiReachable. etrans; [exact Hreach0|].
    eapply rtc_l; [exact Hstep1|exact Hsteps]. }
  rewrite (Hgen reg2 url plat2 now2 i1 t Hreach2 Ht Hut Hterm2). auto.
Qed.

Lemma oneSession_api_reachable : ApiReachable oneSession.
Proof. apply rtc_once. apply api_create. Qed.

Lemma create_idempotent_witness :
  create oneSession "https://www.twitch.tv/somechannel" "youtube" 9 =
  (0, oneSession).
Proof.
  refine (proj1 (create_idempotent oneSession "https://www.twitch.tv/somechannel"
                   "youtube" 9 0 freshSession _ _ _ _)).
  - exact oneSession_api_reachable.
  - exact oneSession_lookup.
  - reflexivity.
  - reflexivity.
Defined.

End Idempotence.

Section HandleInvariant.
Import StreamCore.


Lemma system_step_api maxRetries reg reg' :
  SystemStep maxRetries reg reg' -> ApiStep reg reg'.
Proof.
  intros [reg0 url plat now|reg0 i ev reg1 H|reg0 i].
  - constructor.
  - unfold dispatch in H. destruct (get reg0 i) as [s|]; [|discriminate].
    destruct (fire maxRetries ev s) as [[next mutator]|]; [|discriminate].
    econstructor. exact H.
  - constructor.
Qed.

Lemma reachable_api maxRetries reg : Reachable maxRetries reg -> ApiReachable reg.
Proof.
  unfold Reachable, ApiReachable. induction 1 as [|a b c Hab _ IH]; [constructor|].
  eapply rtc_l; [eapply system_step_api, Hab|exact IH].
Qed.










End HandleInvariant.

Section RecoveryBound.
Import StreamCore.






End RecoveryBound.

Section ResolveFailures.
Import StreamCore.







End ResolveFailures.

(** ** Time codes: further properties *)

Section TimeFields.
Import JS.

Lemma split_joinColon fields :
  fields <> [] -> Forall colonFree fields -> split 58 (joinColon fields) = fields.
Proof.
  induction fields as [|f rest IH]; [congruence|]. intros _ Hall.
  pose proof (Forall_inv Hall) as Hf. pose proof (Forall_inv_tail Hall) as Hrest.
  destruct rest as [|g rest'].
  - simpl. now apply split_no_sep.
  - change (joinColon (f :: g :: rest')) with (f ++ 58 :: joinColon (g :: rest')).
    rewrite split_app_sep by exact Hf. f_equal. apply IH; [discriminate|exact Hrest].
Qed.

Lemma joinColon_nonempty f g rest : joinColon (f :: g :: rest) <> [].
Proof.
  change (joinColon (f :: g :: rest)) with (f ++ 58 :: joinColon (g :: rest)).
  intros E. apply app_eq_nil in E as [_ E]. discriminate.
Qed.

(** X1.  The three copies of [parseTime] compute the same function on
    strings: the empty-string guard of [VideoEditorUtils] and [TimerModule]
    only short-cuts what the unguarded copy returns anyway. *)
Theorem parseTime_copies_agree (t : jsstring) :
  VideoEditorUtils.parseTime t = VideoEditorCore.parseTime t /\
  TimerModule.parseTime t = VideoEditorCore.parseTime t.
Proof. destruct t; split; reflexivity. Qed.

(** X2.  A time code of four or more colon-separated fields is read as its
    first field alone (or [0] when that field is not a number); the other
    fields are ignored without an error. *)
Theorem parseTime_surplus_fields (f1 f2 f3 f4 : jsstring) (more : list jsstring) :
  Forall colonFree (f1 :: f2 :: f3 :: f4 :: more) ->
  VideoEditorCore.parseTime (joinColon (f1 :: f2 :: f3 :: f4 :: more)) =
    num_or_zero (parseInt10 f1) /\
  VideoEditorUtils.parseTime (joinColon (f1 :: f2 :: f3 :: f4 :: more)) =
    num_or_zero (parseInt10 f1).
Proof.
  intros Hall.
  assert (VideoEditorCore.parseTime (joinColon (f1 :: f2 :: f3 :: f4 :: more)) =
          num_or_zero (parseInt10 f1)) as E.
  { unfold VideoEditorCore.parseTime.
    rewrite split_joinColon by (try discriminate; exact Hall). reflexivity. }
  split; [exact E|]. now rewrite (proj1 (parseTime_copies_agree _)).
Qed.

Lemma parseTime_surplus_fields_witness :
  VideoEditorCore.parseTime (lit "1:02:03:04") = Int 1.
Proof.
  refine (proj1 (parseTime_surplus_fields (lit "1") (lit "02") (lit "03") (lit "04")
                   [] _)).
  vm_compute. repeat constructor; discriminate.
Defined.




End TimeFields.

Section TimeEdges.
Import JS.

Lemma roundtrip_guarded (s : N) :
  VideoEditorUtils.parseTime (VideoEditorUtils.formatTime (Int (Z.of_N s))) =
  Int (Z.of_N s).
Proof.
  destruct (fields_bounds s) as (Hh & Hm & Hc).
  rewrite formatTime_fields_guarded, parseTime_hhmmss_guarded by lia.
  now rewrite fields_sum.
Qed.



Lemma digits_small n : n < 10 -> digits n = [48 + n].
Proof. intros H. funelim (digits n); [reflexivity|contradiction]. Qed.

Lemma digits_large n : ~ n < 10 -> digits n = digits (n / 10) ++ [48 + n mod 10].
Proof. intros H. funelim (digits n); [contradiction|reflexivity]. Qed.

Lemma digits_length_two n : n < 100 -> (length (digits n) <= 2)%nat.
Proof.
  intros H. destruct (decide (n < 10)) as [Hs|Hl].
  - rewrite digits_small by exact Hs. simpl. lia.
  - rewrite digits_large by exact Hl. rewrite length_app, digits_small; [simpl; lia|].
    apply N.Div0.div_lt_upper_bound; lia.
Qed.

Lemma digits_length_three n : 100 <= n -> (3 <= length (digits n))%nat.
Proof.
  intros H. rewrite digits_large by lia. rewrite length_app.
  assert (10 <= n / 10) as H10 by (apply N.div_le_lower_bound; lia).
  rewrite (digits_large (n / 10)) by lia. rewrite length_app. simpl.
  pose proof (digits_nonempty (n / 10 / 10)) as Hne.
  destruct (digits (n / 10 / 10)); [congruence|simpl; lia].
Qed.

Lemma padded_length n :
  (n < 100 -> length (field n) = 2%nat) /\
  (100 <= n -> (3 <= length (field n))%nat).
Proof.
  unfold field, toString, padStart.
  destruct (Z.ltb_spec (Z.of_N n) 0) as [?|_]; [lia|].
  rewrite Zabs2N.id.
  rewrite length_app, repeat_length. split; intros H.
  - pose proof (digits_length_two n H). lia.
  - pose proof (digits_length_three n H). lia.
Qed.

Lemma two_units (l : jsstring) : length l = 2%nat -> exists a b, l = [a; b].
Proof. destruct l as [|a [|b [|c l]]]; try discriminate. eauto. Qed.

(** X6.  Below one hundred hours the guarded [formatTime] renders exactly
    eight units, with the colons at positions 2 and 5 ([HH:MM:SS]); from
    360000 seconds on the hours field outgrows two digits and the code is
    longer. *)
Theorem formatTime_width (s : N) :
  let code := VideoEditorUtils.formatTime (Int (Z.of_N s)) in
  (s < 360000 ->
     length code = 8%nat /\ code !! 2%nat = Some 58 /\ code !! 5%nat = Some 58) /\
  (360000 <= s -> (9 <= length code)%nat).
Proof.
  intros code. subst code. rewrite formatTime_fields_guarded.
  destruct (fields_bounds s) as (Hh & Hm & Hc).
  unfold hhmmss.
  assert (forall z, (0 <= z)%Z ->
            padStart 2 48 (toString (Int z)) = field (Z.to_N z)) as Hf
    by (intros z Hz; unfold field; now rewrite Z2N.id).
  rewrite (Hf (hours_of s)), (Hf (minutes_of s)), (Hf (seconds_of s)) by lia.
  assert (Z.to_N (minutes_of s) < 100) as Hm100
    by (revert Hm; generalize (minutes_of s); intros; lia).
  assert (Z.to_N (seconds_of s) < 100) as Hc100
    by (revert Hc; generalize (seconds_of s); intros; lia).
  destruct (two_units _ (proj1 (padded_length _) Hm100)) as (m1 & m2 & ->).
  destruct (two_units _ (proj1 (padded_length _) Hc100)) as (c1 & c2 & ->).
  split; intros Hs.
  - assert (Z.to_N (hours_of s) < 100) as Hlt.
    { apply N2Z.inj_lt. rewrite Z2N.id by exact Hh.
      unfold hours_of. apply Z.div_lt_upper_bound; lia. }
    destruct (two_units _ (proj1 (padded_length _) Hlt)) as (h1 & h2 & ->).
    repeat split; reflexivity.
  - assert (100 <= Z.to_N (hours_of s)) as Hge.
    { apply N2Z.inj_le. rewrite Z2N.id by exact Hh.
      unfold hours_of. apply Z.div_le_lower_bound; lia. }
    pose proof (proj2 (padded_length _) Hge) as Hlen.
    rewrite length_app. simpl. lia.
Qed.

Lemma formatTime_width_witness :
  length (VideoEditorUtils.formatTime (Int (Z.of_N 359999))) = 8%nat.
Proof.
  refine (proj1 (proj1 (formatTime_width 359999) _)). reflexivity.
Defined.






End TimeEdges.

(** ** The fetch interceptor: further properties *)

Section InterceptorSafety.
Import JS FetchInterceptor.

Lemma dotStarThen_includes (p r : jsstring) :
  dotStarThen p r = true -> includes p r = true.
Proof.
  induction r as [|c r IH]; simpl.
  - now rewrite orb_false_r.
  - intros [H|[_ H]%andb_true_iff]%orb_true_iff.
    + now rewrite H.
    + rewrite (IH H). apply orb_true_r.
Qed.

Lemma afterScheme_Some (s r : jsstring) :
  afterScheme s = Some r ->
  s = lit "https://" ++ r \/ s = lit "http://" ++ r.
Proof.
  unfold afterScheme.
  destruct (startsWith (lit "https://") s) eqn:E1.
  - intros [= <-]. apply startsWith_prefix in E1 as [t ->]. now left.
  - destruct (startsWith (lit "http://") s) eqn:E2; [|discriminate].
    intros [= <-]. apply startsWith_prefix in E2 as [t ->]. now right.
Qed.

Lemma matchesAbsoluteApi_inv (s : jsstring) :
  matchesAbsoluteApi s = true ->
  includes (lit "/api/") s = true /\ startsWith (lit "/") s = false.
Proof.
  unfold matchesAbsoluteApi. destruct (afterScheme s) as [r|] eqn:E; [|discriminate].
  intros H%dotStarThen_includes.
  apply afterScheme_Some in E as [-> | ->]; split;
    try (now apply includes_app_r); reflexivity.
Qed.

Lemma rooted_steps_fixed (u : jsstring) :
  startsWith (lit "/") u = true -> forceStep (relativeStep u) = u.
Proof.
  intros H.
  assert (relativeStep u = u) as ->.
  { unfold relativeStep. destruct (matchesAbsoluteApi u) eqn:E; [|reflexivity].
    apply matchesAbsoluteApi_inv in E as [_ E]. congruence. }
  unfold forceStep. rewrite H. now rewrite andb_false_r.
Qed.

(** X8.  Whatever string is passed to [fetch], an address that still
    contains [/api/] when it reaches the original [fetch] starts with [/]:
    no address of the form [scheme://.../api/...] or [host/api/...] is ever
    dispatched. *)
Theorem dispatched_api_address_is_rooted (url : jsstring) :
  includes (lit "/api/") (rewriteUrl url) = true ->
  startsWith (lit "/") (rewriteUrl url) = true.
Proof.
  unfold rewriteUrl, forceStep.
  set (u := relativeStep (stripStep url)).
  destruct (includes (lit "/api/") u) eqn:Hi;
    destruct (startsWith (lit "/") u) eqn:Hs; cbn [andb negb]; intros H;
    try congruence.
  reflexivity.
Qed.

Lemma dispatched_api_address_is_rooted_witness :
  startsWith (lit "/") (rewriteUrl (lit "cdn.example.org/v2/api/items")) = true.
Proof.
  refine (dispatched_api_address_is_rooted (lit "cdn.example.org/v2/api/items") _).
  vm_compute. reflexivity.
Defined.

(** X9.  The interceptor leaves alone every address that does not mention
    the production domain and either has no [/api/] in it or already starts
    with [/]: relative paths, absolute addresses of other resources, and
    also protocol-relative addresses such as [//host/api/...]. *)
Theorem untouched_addresses (url : jsstring) :
  includes productionDomain url = false ->
  includes (lit "/api/") url = false \/ startsWith (lit "/") url = true ->
  rewriteUrl url = url.
Proof.
  intros Hd Hor. unfold rewriteUrl, stripStep. rewrite Hd.
  assert (relativeStep url = url) as ->.
  { unfold relativeStep. destruct (matchesAbsoluteApi url) eqn:E; [|reflexivity].
    apply matchesAbsoluteApi_inv in E as [E1 E2]. destruct Hor; congruence. }
  unfold forceStep. destruct Hor as [-> | ->]; [reflexivity|].
  now rewrite andb_false_r.
Qed.

Lemma untouched_addresses_witness :
  rewriteUrl (lit "//other.example.org/api/items") =
  lit "//other.example.org/api/items".
Proof.
  refine (untouched_addresses (lit "//other.example.org/api/items") _ _).
  - vm_compute. reflexivity.
  - right. reflexivity.
Defined.

(** X10.  An address on the production origin is cut down to its path,
    whatever the path is (not only under [/api/]): with scheme [http] or
    [https], [scheme://mosaicmaster-production.up.railway.app] followed by
    nothing or by a path is dispatched as that path, with further
    occurrences of the production origin removed from it. *)
Theorem production_origin_cut_to_path (scheme rest : jsstring) :
  scheme = lit "http" \/ scheme = lit "https" ->
  rest = [] \/ startsWith (lit "/") rest = true ->
  rewriteUrl (scheme ++ lit "://" ++ productionDomain ++ rest) =
  stripProductionOrigin rest.
Proof.
  intros Hs Hrest. unfold rewriteUrl. rewrite stripStep_strip.
  assert (stripProductionOrigin (scheme ++ lit "://" ++ productionDomain ++ rest) =
          stripProductionOrigin rest) as ->.
  { destruct Hs as [-> | ->].
    - change (lit "http" ++ lit "://" ++ productionDomain ++ rest)
        with (originHttp ++ rest).
      rewrite (strip_match _ (pred (length originHttp))).
      + change (S (pred (length originHttp))) with (length originHttp).
        now rewrite drop_app_length.
      + unfold matchProductionOrigin.
        assert (startsWith originHttps (originHttp ++ rest) = false) as ->
          by reflexivity.
        now rewrite startsWith_app.
    - change (lit "https" ++ lit "://" ++ productionDomain ++ rest)
        with (originHttps ++ rest).
      rewrite (strip_match _ (pred (length originHttps))).
      + change (S (pred (length originHttps))) with (length originHttps).
        now rewrite drop_app_length.
      + unfold matchProductionOrigin. now rewrite startsWith_app. }
  destruct Hrest as [-> | H]; [reflexivity|].
  apply startsWith_prefix in H as [r ->]. change (lit "/" ++ r) with (47 :: r).
  rewrite strip_head by discriminate.
  now apply rooted_steps_fixed.
Qed.

Lemma production_origin_cut_to_path_witness :
  rewriteUrl (lit "http" ++ lit "://" ++ productionDomain ++ lit "/download/clip.mp4") =
  stripProductionOrigin (lit "/download/clip.mp4").
Proof.
  refine (production_origin_cut_to_path (lit "http") (lit "/download/clip.mp4") _ _).
  - left. reflexivity.
  - right. reflexivity.
Defined.

End InterceptorSafety.

(** ** The progress channel: payloads that are not progress objects *)

Section OddPayloads.
Import JS ProgressClient.

Variable JSON_parse : jsstring -> option json.

(** X11.  A message that parses to [null] makes the handlers of
    [VideoEditorCore] and of the trim module throw a [TypeError] before
    anything is shown (as soon as one of the two progress elements exists),
    while the guarded handler of [VideoEditorUtils] logs it and goes on.  A
    message that parses to a number, a string, a boolean or an array, and an
    object without [progress] and [status], are shown as [undefined%] and
    [undefined]. *)
Theorem progress_handlers_on_odd_payloads
    (els : elements) (raw : jsstring) (data : json) :
  JSON_parse raw = Some data ->
  (data = JNull -> progressBar els || statusText els = true ->
     onmessage JSON_parse els raw = ([], inl TypeError) /\
     onmessage_guarded JSON_parse els raw = ([ConsoleError], inr tt)) /\
  (data <> JNull ->
   (forall ms, data = JObject ms ->
      member (lit "progress") ms = Undefined /\ member (lit "status") ms = Undefined) ->
     onmessage JSON_parse els raw =
       ((if progressBar els then [SetStyleWidth (lit "undefined%")] else []) ++
        (if statusText els then [SetTextContent Undefined] else []), inr tt) /\
     onmessage_guarded JSON_parse els raw = onmessage JSON_parse els raw).
Proof.
  intros Hp. unfold onmessage_guarded, onmessage, parse. rewrite Hp. cbn [bind ret app].
  split.
  - intros -> Hex. unfold updateProgress.
    destruct (progressBar els), (statusText els); try discriminate; auto.
  - intros Hnull Hobj.
    assert (getProperty (lit "progress") data = inr Undefined /\
            getProperty (lit "status") data = inr Undefined) as [E1 E2].
    { destruct data; try congruence; simpl; auto.
      destruct (Hobj _ eq_refl) as [-> ->]. auto. }
    unfold updateProgress. rewrite E1, E2.
    destruct (progressBar els), (statusText els); auto.
Qed.

End OddPayloads.

Section OddPayloadInstances.
Import JS ProgressClient.

Lemma progress_handlers_on_odd_payloads_witness :
  onmessage (fun _ => Some JNull) {| progressBar := true; statusText := false |}
    (lit "null") = ([], inl TypeError) /\
  onmessage_guarded (fun _ => Some JNull) {| progressBar := true; statusText := false |}
    (lit "null") = ([ConsoleError], inr tt).
Proof.
  refine (proj1 (progress_handlers_on_odd_payloads (fun _ => Some JNull)
                   {| progressBar := true; statusText := false |}
                   (lit "null") JNull _) _ _); reflexivity.
Defined.

End OddPayloadInstances.

(** ** Platform presets of the core module *)

Section Presets.
Import JS CorePresets.

Lemma table_entry name p :
  In (name, p) platformPresets ->
  name <> lit "original" /\ lookupPreset name = Own p /\
  exists M, maxDuration p = Int M /\ (0 < M)%Z.
Proof.
  unfold platformPresets. intros Hin.
  repeat (destruct Hin as [[= <- <-]|Hin];
          [split; [vm_compute; discriminate|];
           split; [vm_compute; reflexivity|];
           eexists; split; [reflexivity|reflexivity]|]).
  destruct Hin.
Qed.

Lemma applyAspectRatio_keeps pg platform v :
  videoDuration (applyAspectRatio pg platform v).1 = videoDuration v /\
  startTime (applyAspectRatio pg platform v).1 = startTime v.
Proof.
  unfold applyAspectRatio, clampEnd.
  destruct (negb (videoContainer pg)); [auto|].
  case_bool_decide; [auto|].
  destruct (lookupPreset platform) as [p| |]; [|auto|auto].
  destruct (gt (videoDuration v) (Int 0) && truthy (maxDuration p)); [|auto].
  destruct (gt (endTime v) (maxDuration p)); auto.
Qed.



(** X13.  The preset button, for a video longer than the platform's
    maximum duration, sets the end time to that maximum whatever it was
    before (an earlier end chosen by the user is moved out to the limit, an
    unset one is filled in), tells the user so in an alert, and leaves the
    start time alone. *)
Theorem applyPresetClick_pins_end
    (pg : page) (name : jsstring) (p : preset) (v : vars) (d : Z) :
  In (name, p) platformPresets ->
  videoDuration v = Int d ->
  gt (Int d) (maxDuration p) = true ->
  endTime (applyPresetClick pg name v).1 = maxDuration p /\
  startTime (applyPresetClick pg name v).1 = startTime v /\
  In (Alert (name ++ lit " has a maximum duration of " ++
             VideoEditorCore.formatTime (maxDuration p) ++
             lit ". End time adjusted."))
     (applyPresetClick pg name v).2.
Proof.
  intros Hin Hd Hgt.
  destruct (table_entry name p Hin) as (Hne & Hl & M & HM & HMpos).
  unfold applyPresetClick. rewrite Hl.
  destruct (applyAspectRatio_keeps pg name v) as [Kd Ks].
  destruct (applyAspectRatio pg name v) as [va ea]. simpl in Kd, Ks.
  assert (truthy (maxDuration p) = true) as Ht.
  { rewrite HM. unfold truthy. rewrite bool_decide_eq_false_2 by lia. reflexivity. }
  assert (min (maxDuration p) (Int d) = maxDuration p) as Hmin.
  { rewrite HM in *. unfold gt in Hgt. apply bool_decide_eq_true in Hgt.
    unfold min. f_equal. lia. }
  destruct (aspectRatioSelector pg).
  - rewrite Ht, Kd, Hd, Hgt. unfold clampEnd. cbn [andb fst snd].
    rewrite Kd, Hd, Hmin. simpl. split; [reflexivity|]. split; [exact Ks|].
    apply in_cons, in_or_app. right. apply in_or_app. right. left. reflexivity.
  - rewrite Ht, Hd, Hgt. unfold clampEnd. cbn [andb fst snd].
    rewrite Hd, Hmin. simpl. split; [reflexivity|]. split; [reflexivity|].
    apply in_or_app. right. left. reflexivity.
Qed.

Lemma applyPresetClick_pins_end_witness :
  endTime (applyPresetClick
             {| videoContainer := true; endTimeInput := true;
                aspectRatioSelector := true |}
             (lit "youtube")
             {| videoDuration := Int 3600; startTime := Int 900; endTime := Int 100 |}).1
  = Int 720.
Proof.
  refine (proj1 (applyPresetClick_pins_end
            {| videoContainer := true; endTimeInput := true;
               aspectRatioSelector := true |}
            (lit "youtube")
            {| aspectRatio := lit "16:9"; maxDuration := Int 720;
               class := lit "platform-youtube" |}
            {| videoDuration := Int 3600; startTime := Int 900; endTime := Int 100 |}
            3600 _ _ _)).
  - left. reflexivity.
  - reflexivity.
  - reflexivity.
Defined.

End Presets.

(** ** The trim module *)

Section TrimProperties.
Import JS ProgressClient TrimModule.

Variable JSON_parse : jsstring -> option json.

Lemma filter_app_list {A} (p : A -> bool) (l l' : list A) :
  List.filter p (l ++ l') = List.filter p l ++ List.filter p l'.
Proof. apply List.filter_app. Qed.

Lemma lastStatus_app (a b : list TrimModule.effect) :
  lastStatus (a ++ b) =
  match lastStatus b with
  | Some v => Some v
  | None => lastStatus a
  end.
Proof.
  unfold lastStatus. rewrite fold_left_app.
  generalize (fold_left
    (fun shown e => match e with
                    | Chan (SetTextContent v) => Some v
                    | _ => shown
                    end) a None).
  induction b as [|e b IH]; intros acc; simpl.
  - reflexivity.
  - destruct e as [| |c| | | | | | | | | | |]; try apply IH.
    destruct c; try apply IH.
    rewrite IH. rewrite (IH None).
    destruct (fold_left _ b None); reflexivity.
Qed.

Lemma getProperty_same_outcome k k' result v :
  getProperty k result = inr v -> exists v', getProperty k' result = inr v'.
Proof.
  destruct result; simpl; intros H; try discriminate; eauto.
Qed.

Ltac trim_cases eng f els result :=
  unfold showResult, createIcons;
  destruct (getProperty (lit "download_url") result) as [?|url] eqn:Hurl;
  [| destruct (getProperty_same_outcome _ (lit "audio_download_url") _ _ Hurl)
       as [audio Haudio]; rewrite Haudio;
     destruct (truthyValue url), (downloadBtn f), (lucideLoaded f),
       (truthyValue audio), (downloadBtnParent f) ];
  destruct (progressBar els), (statusText els).

Lemma showResult_control eng f els result :
  List.filter control (fst (showResult eng f els result)) = [].
Proof. trim_cases eng f els result; reflexivity. Qed.

Lemma showResult_alerts eng f els result :
  List.filter alerts (fst (showResult eng f els result)) = [].
Proof. trim_cases eng f els result; reflexivity. Qed.

Lemma tryBlock_control eng f els r :
  List.filter control (fst (tryBlock eng f els r)) = [request].
Proof.
  destruct r as [m|m|[m|result]]; try reflexivity.
  unfold tryBlock.
  pose proof (showResult_control eng f els result) as H.
  destruct (showResult eng f els result) as [es err]. simpl in *.
  rewrite H. reflexivity.
Qed.

Lemma tryBlock_alerts eng f els r :
  List.filter alerts (fst (tryBlock eng f els r)) = [].
Proof.
  destruct r as [m|m|[m|result]]; try reflexivity.
  unfold tryBlock.
  pose proof (showResult_alerts eng f els result) as H.
  destruct (showResult eng f els result) as [es err]. simpl in *.
  exact H.
Qed.

Lemma tryBlock_request eng f els r :
  exists es, fst (tryBlock eng f els r) = request :: es.
Proof.
  destruct r as [m|m|[m|result]]; try (eexists; reflexivity).
  unfold tryBlock.
  destruct (showResult eng f els result) as [es err]. eexists; reflexivity.
Qed.

Lemma catchBlock_control els m : List.filter control (catchBlock els m) = [].
Proof. unfold catchBlock. destruct (statusText els), (progressBar els); reflexivity. Qed.

Lemma catchBlock_alerts els m : List.filter alerts (catchBlock els m) = [].
Proof. unfold catchBlock. destruct (statusText els), (progressBar els); reflexivity. Qed.

Lemma formFields_control f file s e :
  List.filter control (formFields f file s e) = [].
Proof.
  unfold formFields.
  destruct (useOpenshot f), (outputQuality f); reflexivity.
Qed.

Lemma formFields_alerts f file s e :
  List.filter alerts (formFields f file s e) = [].
Proof.
  unfold formFields.
  destruct (useOpenshot f), (outputQuality f); reflexivity.
Qed.

Lemma connect_opening loc els core u u' :
  u <> [] ->
  opening (executeTrim_connect JSON_parse core loc els u u') =
  [FormDataAppend (lit "connection_id") u; WsOpen (wsUrl loc u)].
Proof.
  intros Hu. unfold executeTrim_connect. destruct core; simpl.
  - destruct u; [contradiction|reflexivity].
  - reflexivity.
Qed.

Lemma connect_opening_shape loc els core u u' :
  exists id,
    opening (executeTrim_connect JSON_parse core loc els u u') =
    [FormDataAppend (lit "connection_id") u; WsOpen (wsUrl loc id)].
Proof.
  unfold executeTrim_connect. destruct core; simpl.
  - destruct u; eexists; reflexivity.
  - eexists; reflexivity.
Qed.

(** What [executeTrim] does once the checks have passed. *)
Lemma executeTrim_validated eng loc els f u u' r :
  validated f = true ->
  exists file startTime endTime,
    videoFile f = Some file /\ startTimeInput f = Some startTime /\
    endTimeInput f = Some endTime /\
    executeTrim JSON_parse eng loc els f u u' r =
      (if subtitlesPanel f then [ShowSubtitlesPanel] else []) ++
      formFields f file startTime endTime ++
      List.map Chan (opening (executeTrim_connect JSON_parse (coreLoaded f) loc els u u')) ++
      (if processingSection f then [ShowProcessingSection] else []) ++
      (if progressBar els then [Chan (SetStyleWidth (lit "0%"))] else []) ++
      (if statusText els
       then [Chan (SetTextContent (text (lit "Starting video trim...")))] else []) ++
      [SetDisabled true] ++
      fst (tryBlock eng f els r) ++
      match snd (tryBlock eng f els r) with
      | Some m => catchBlock els m
      | None => []
      end ++
      [SetDisabled false; Chan WsClose].
Proof.
  unfold validated, executeTrim. intros Hv.
  destruct (videoFile f) as [file|]; [|discriminate].
  destruct (startTimeInput f) as [s|]; [|discriminate].
  destruct (endTimeInput f) as [e|]; [|discriminate].
  exists file, s, e. do 3 (split; [reflexivity|]).
  destruct (bool_decide (s = [])); [discriminate|].
  destruct (bool_decide (e = [])); [discriminate|].
  cbn [orb]. destruct (tryBlock eng f els r) as [tried err]. reflexivity.
Qed.

(** X14 ([executeTrim], the checks).  Whatever the page and the answer
    are: when a file is selected and both time inputs exist and are not
    empty, nothing is alerted and the request is sent; otherwise the
    function does nothing but show the subtitles panel (only when a file
    is there) and raise one alert: no form field, no socket, no request,
    no change of the button. *)
Theorem executeTrim_checks_before_sending eng loc els f u u' r :
  let t := executeTrim JSON_parse eng loc els f u u' r in
  if validated f
  then List.filter alerts t = [] /\ In request t
  else exists m, t = [Alert m] \/
                 (videoFile f <> None /\ t = [ShowSubtitlesPanel; Alert m]).
Proof.
  intros t. destruct (validated f) eqn:Hv.
  - destruct (executeTrim_validated eng loc els f u u' r Hv)
      as (file & s & e & _ & _ & _ & Ht).
    subst t. rewrite Ht. split.
    + destruct (connect_opening_shape loc els (coreLoaded f) u u') as [id Hid].
      rewrite Hid.
      rewrite !filter_app_list, formFields_alerts, tryBlock_alerts.
      destruct (snd (tryBlock eng f els r)) as [m|];
        [rewrite catchBlock_alerts|];
        destruct (subtitlesPanel f), (processingSection f), (progressBar els),
          (statusText els); reflexivity.
    + destruct (tryBlock_request eng f els r) as [es Hes]. rewrite Hes.
      rewrite !in_app_iff. do 7 right. left. left. reflexivity.
  - subst t. unfold validated in Hv. unfold executeTrim.
    destruct (videoFile f) as [file|]; [|eexists; left; reflexivity].
    destruct (startTimeInput f) as [s|], (endTimeInput f) as [e|];
      try (destruct (subtitlesPanel f); eexists;
           [right; split; [discriminate|reflexivity] | left; reflexivity]).
    destruct (bool_decide (s = [])), (bool_decide (e = [])); try discriminate;
      cbn [orb];
      destruct (subtitlesPanel f); eexists;
      try (right; split; [discriminate|reflexivity]); left; reflexivity.
Qed.

(** X15 ([executeTrim], the socket around the request).  Once the checks
    have passed, and whatever the answer is (the request fails, the server
    refuses, the body cannot be read, the page lacks an element or the
    icon library): one socket is opened at the address of the id just
    drawn, the button is disabled, the request is sent, the button is
    enabled again and the socket is closed, in this order and once each;
    nothing is ever sent on the socket. *)
Theorem executeTrim_socket_around_request eng loc els f u u' r :
  validated f = true -> u <> [] ->
  List.filter control (executeTrim JSON_parse eng loc els f u u' r) =
  [Chan (WsOpen (wsUrl loc u)); SetDisabled true; request;
   SetDisabled false; Chan WsClose].
Proof.
  intros Hv Hu.
  destruct (executeTrim_validated eng loc els f u u' r Hv)
    as (file & s & e & _ & _ & _ & Ht).
  rewrite Ht, (connect_opening loc els (coreLoaded f) u u' Hu).
  rewrite !filter_app_list, formFields_control, tryBlock_control.
  destruct (snd (tryBlock eng f els r)) as [m|];
    [rewrite catchBlock_control|];
    destruct (subtitlesPanel f), (processingSection f), (progressBar els),
      (statusText els); reflexivity.
Qed.


Lemma executeTrim_split eng loc els f u u' r :
  validated f = true ->
  exists pre,
    Forall (fun e => setsUp e = true) pre /\
    executeTrim JSON_parse eng loc els f u u' r =
      pre ++ [SetDisabled true] ++ fst (tryBlock eng f els r) ++
      match snd (tryBlock eng f els r) with
      | Some m => catchBlock els m
      | None => []
      end ++ [SetDisabled false; Chan WsClose].
Proof.
  intros Hv.
  destruct (executeTrim_validated eng loc els f u u' r Hv)
    as (file & s & e & _ & _ & _ & Ht).
  destruct (connect_opening_shape loc els (coreLoaded f) u u') as [id Hid].
  rewrite Hid in Ht.
  eexists. split; [|rewrite Ht; rewrite !app_assoc; reflexivity].
  unfold formFields.
  destruct (subtitlesPanel f), (useOpenshot f), (outputQuality f),
    (processingSection f), (progressBar els), (statusText els);
    cbn [app List.map]; repeat constructor.
Qed.

Lemma setsUp_filter (p : TrimModule.effect -> bool) (pre : list TrimModule.effect) :
  Forall (fun e => setsUp e = true) pre ->
  (forall e, setsUp e = true -> p e = false) ->
  List.filter p pre = [].
Proof.
  intros Hpre Hp. induction Hpre as [|e l He _ IH]; simpl.
  - reflexivity.
  - rewrite (Hp e He). exact IH.
Qed.

Lemma setsUp_not_in (x : TrimModule.effect) (pre : list TrimModule.effect) :
  Forall (fun e => setsUp e = true) pre -> setsUp x = false -> ~ In x pre.
Proof.
  intros Hpre Hx Hin. rewrite List.Forall_forall in Hpre.
  specialize (Hpre x Hin). congruence.
Qed.

Lemma lastStatus_catch els m :
  statusText els = true ->
  lastStatus (catchBlock els m) = Some (text (lit "Error: " ++ m)).
Proof.
  intros Hs. unfold catchBlock. rewrite Hs.
  destruct (progressBar els); reflexivity.
Qed.

(** How the statements behind a parsed answer end. *)
Lemma showResult_outcome eng f els result :
  statusText els = true ->
  if completes f (HttpSuccess (inr result))
  then snd (showResult eng f els result) = None /\
       lastStatus (fst (showResult eng f els result)) =
         Some (text (lit "Video trimming complete!")) /\
       ~ In MarkProgressFailed (fst (showResult eng f els result)) /\
       ~ In (Chan ConsoleError) (fst (showResult eng f els result))
  else (exists m, snd (showResult eng f els result) = Some m) /\
       (progressBar els = true ->
        In (Chan (SetStyleWidth (lit "100%"))) (fst (showResult eng f els result))).
Proof.
  intros Hs. unfold completes.
  unfold showResult, createIcons; rewrite Hs;
  destruct (getProperty (lit "download_url") result) as [?|url] eqn:Hurl;
  [| destruct (getProperty_same_outcome _ (lit "audio_download_url") _ _ Hurl)
       as [audio Haudio]; rewrite Haudio;
     destruct (truthyValue url), (downloadBtn f), (lucideLoaded f),
       (truthyValue audio), (downloadBtnParent f) ];
  destruct (progressBar els); cbn [andb negb fst snd app];
  first
    [ split; [eexists; reflexivity | intros; try discriminate; cbn; tauto]
    | split; [reflexivity | split; [reflexivity |
        split; cbn; intuition discriminate ] ] ].
Qed.

(** X16 ([executeTrim], what the page shows at the end).  Once the checks
    have passed and the status line exists: when the request fails, the
    server refuses or the body cannot be parsed, the line ends as
    [Error: ] followed by the message and the bar is never set to 100%;
    when a parsed answer arrives, the line ends as
    [Video trimming complete!] exactly when the answer is not [null] and
    not (a download address, a download button, no icon library), and
    otherwise it ends as an error although the bar was already set to
    100% before it is marked as failed. *)
Theorem executeTrim_final_status eng loc els f u u' r :
  validated f = true -> statusText els = true ->
  let t := executeTrim JSON_parse eng loc els f u u' r in
  match r with
  | NetworkError m | HttpFailure m | HttpSuccess (inl m) =>
      lastStatus t = Some (text (lit "Error: " ++ m)) /\
      ~ In (Chan (SetStyleWidth (lit "100%"))) t
  | HttpSuccess (inr result) =>
      if completes f r
      then lastStatus t = Some (text (lit "Video trimming complete!")) /\
           ~ In MarkProgressFailed t /\ ~ In (Chan ConsoleError) t
      else exists m,
             lastStatus t = Some (text (lit "Error: " ++ m)) /\
             (progressBar els = true ->
              In (Chan (SetStyleWidth (lit "100%"))) t /\ In MarkProgressFailed t)
  end.
Proof.
  intros Hv Hs t.
  destruct (executeTrim_split eng loc els f u u' r Hv) as (pre & Hpre & Ht).
  subst t. rewrite Ht. clear Ht.
  assert (Hfail : forall m,
    lastStatus (pre ++ [SetDisabled true] ++ [request] ++ catchBlock els m ++
                [SetDisabled false; Chan WsClose]) =
      Some (text (lit "Error: " ++ m)) /\
    ~ In (Chan (SetStyleWidth (lit "100%")))
        (pre ++ [SetDisabled true] ++ [request] ++ catchBlock els m ++
         [SetDisabled false; Chan WsClose])).
  { intros m. split.
    - rewrite !lastStatus_app, (lastStatus_catch els m Hs). reflexivity.
    - rewrite !in_app_iff. intros [H|[H|[H|[H|H]]]].
      + revert H. apply setsUp_not_in; [exact Hpre|reflexivity].
      + cbn in H. intuition discriminate.
      + cbn in H. intuition discriminate.
      + unfold catchBlock in H. rewrite Hs in H.
        destruct (progressBar els); cbn in H; intuition discriminate.
      + cbn in H. intuition discriminate. }
  destruct r as [m|m|[m|result]]; try apply Hfail.
  pose proof (showResult_outcome eng f els result Hs) as Hout.
  unfold tryBlock.
  destruct (showResult eng f els result) as [es err]. cbn [fst snd] in *.
  destruct (completes f (HttpSuccess (inr result))).
  - destruct Hout as (-> & Hlast & Hred & Hlog).
    split; [|split].
    + change (Fetch (lit "/api/videocutter/trim") (lit "POST") :: es)
        with ([request] ++ es).
      rewrite !lastStatus_app, Hlast. reflexivity.
    + rewrite !in_app_iff. intros [H|[H|[H|H]]].
      * revert H. apply setsUp_not_in; [exact Hpre|reflexivity].
      * cbn in H. intuition discriminate.
      * destruct H as [H|H]; [discriminate|contradiction].
      * cbn in H. intuition discriminate.
    + rewrite !in_app_iff. intros [H|[H|[H|H]]].
      * revert H. apply setsUp_not_in; [exact Hpre|reflexivity].
      * cbn in H. intuition discriminate.
      * destruct H as [H|H]; [discriminate|contradiction].
      * cbn in H. intuition discriminate.
  - destruct Hout as ([m ->] & Hfull). exists m. split.
    + rewrite !lastStatus_app, (lastStatus_catch els m Hs). reflexivity.
    + intros Hbar. split.
      * rewrite !in_app_iff. right. right. left. right. exact (Hfull Hbar).
      * rewrite !in_app_iff. do 3 right. left.
        unfold catchBlock. rewrite Hs, Hbar. cbn. tauto.
Qed.

(** X17 ([executeTrim], the icon library).  Once the checks have passed,
    for an answer with a download address on a page with a download
    button: without the icon library the download button is set up and
    shown, but no audio button is ever created, whatever the answer says
    about an audio track, and the status line ends as an error naming the
    library; with the library, an audio button is created for every
    answer that has an audio address. *)
Theorem executeTrim_icon_library eng loc els f u u' result url :
  validated f = true -> downloadBtn f = true ->
  getProperty (lit "download_url") result = inr url -> truthyValue url = true ->
  let t := executeTrim JSON_parse eng loc els f u u' (HttpSuccess (inr result)) in
  In (SetDownloadButtonTarget url) t /\ In ShowDownloadButton t /\
  if lucideLoaded f
  then forall audio,
         getProperty (lit "audio_download_url") result = inr audio ->
         truthyValue audio = true -> In (AudioButtonCreated audio) t
  else List.filter createsAudioButton t = [] /\
       (statusText els = true ->
        lastStatus t =
          Some (text (lit "Error: " ++ undefinedVariableMessage eng (lit "lucide")))).
Proof.
  intros Hv Hbtn Hurl Htruthy t.
  destruct (executeTrim_split eng loc els f u u' (HttpSuccess (inr result)) Hv)
    as (pre & Hpre & Ht).
  subst t. rewrite Ht. clear Ht.
  unfold tryBlock, showResult, createIcons.
  rewrite Hurl, Htruthy, Hbtn.
  destruct (lucideLoaded f).
  - cbn [fst snd]. split; [|split].
    + destruct (getProperty (lit "audio_download_url") result) as [?|audio];
        [|destruct (truthyValue audio); [destruct (true && downloadBtnParent f)|]];
        cbn [fst snd]; rewrite !in_app_iff; right; right; left; right;
        rewrite !in_app_iff; right; left; cbn; tauto.
    + destruct (getProperty (lit "audio_download_url") result) as [?|audio];
        [|destruct (truthyValue audio); [destruct (true && downloadBtnParent f)|]];
        cbn [fst snd]; rewrite !in_app_iff; right; right; left; right;
        rewrite !in_app_iff; right; left; cbn; tauto.
    + intros audio Haudio Ha. rewrite Haudio, Ha.
      destruct (true && downloadBtnParent f); cbn [fst snd];
        rewrite !in_app_iff; right; right; left; right;
        rewrite !in_app_iff; right; right; cbn; tauto.
  - cbn [fst snd]. split; [|split; [|split]].
    + rewrite !in_app_iff. right; right; left; right.
      rewrite !in_app_iff. right. cbn. tauto.
    + rewrite !in_app_iff. right; right; left; right.
      rewrite !in_app_iff. right. cbn. tauto.
    + rewrite !filter_app_list.
      rewrite (setsUp_filter createsAudioButton pre Hpre)
        by (intros [] He; try reflexivity; discriminate).
      unfold catchBlock.
      destruct (progressBar els), (statusText els); reflexivity.
    + intros Hs. rewrite !lastStatus_app, (lastStatus_catch els _ Hs). reflexivity.
Qed.

End TrimProperties.

Section TrimInstances.
Import JS ProgressClient TrimModule.

Lemma executeTrim_socket_around_request_witness :
  List.filter control
    (executeTrim (fun _ => None) sampleEngine sampleLocation sampleElements
       sampleForm sample_uuid [] (HttpFailure (lit "Internal Server Error"))) =
  [Chan (WsOpen (lit "wss://example.org/ws/3b241101-e2bb-4255-8caf-4136c566a962"));
   SetDisabled true; request; SetDisabled false; Chan WsClose].
Proof.
  apply (executeTrim_socket_around_request (fun _ => None) sampleEngine sampleLocation
           sampleElements sampleForm sample_uuid []
           (HttpFailure (lit "Internal Server Error"))).
  - reflexivity.
  - discriminate.
Defined.

Lemma executeTrim_final_status_witness :
  exists m,
    lastStatus (executeTrim (fun _ => None) sampleEngine sampleLocation
                  sampleElements sampleForm sample_uuid []
                  (HttpSuccess (inr sampleResult))) =
      Some (text (lit "Error: " ++ m)) /\
    (progressBar sampleElements = true ->
     In (Chan (SetStyleWidth (lit "100%")))
        (executeTrim (fun _ => None) sampleEngine sampleLocation
           sampleElements sampleForm sample_uuid []
           (HttpSuccess (inr sampleResult))) /\
     In MarkProgressFailed
        (executeTrim (fun _ => None) sampleEngine sampleLocation
           sampleElements sampleForm sample_uuid []
           (HttpSuccess (inr sampleResult)))).
Proof.
  apply (executeTrim_final_status (fun _ => None) sampleEngine sampleLocation
           sampleElements sampleForm sample_uuid []
           (HttpSuccess (inr sampleResult))); reflexivity.
Defined.

Lemma executeTrim_icon_library_witness :
  List.filter createsAudioButton
    (executeTrim (fun _ => None) sampleEngine sampleLocation sampleElements
       sampleForm sample_uuid [] (HttpSuccess (inr sampleResult))) = [].
Proof.
  refine (proj1 (proj2 (proj2
    (executeTrim_icon_library (fun _ => None) sampleEngine sampleLocation
       sampleElements sampleForm sample_uuid [] sampleResult
       (Of (JString (lit "/download/clip.mp4"))) _ _ _ _)))); reflexivity.
Defined.

End TrimInstances.

(** ** The ruler and the zoom of the timer module *)

Section TimelineProperties.
Import JS TimerTimeline.
Local Open Scope Z_scope.

Lemma rounds_step d i t :
  0 < i -> t <= d -> rounds d i t = S (rounds d i (t + i)).
Proof.
  intros Hi Ht. unfold rounds.
  replace (d - t) with ((d - (t + i)) + 1 * i) by lia.
  rewrite Z.div_add by lia.
  assert (-1 <= (d - (t + i)) / i).
  { replace (d - (t + i)) with ((d - t) + (-1) * i) by lia.
    rewrite Z.div_add by lia.
    pose proof (Z.div_pos (d - t) i ltac:(lia) Hi). lia. }
  rewrite <- Z2Nat.inj_succ by lia. f_equal; lia.
Qed.

Lemma rounds_done d i t : 0 < i -> d < t -> rounds d i t = 0%nat.
Proof.
  intros Hi Ht. unfold rounds.
  assert ((d - t) / i < 0) by (apply Z.div_lt_upper_bound; lia).
  lia.
Qed.

Lemma markFrom_rounds fuel : forall d i M t,
  0 < i -> (rounds d i t <= fuel)%nat ->
  markFrom fuel d i M t =
  flat_map (mark d M)
    (List.map (fun k => t + Z.of_nat k * i) (seq 0 (rounds d i t))).
Proof.
  induction fuel as [|fuel IH]; intros d i M t Hi Hfuel.
  - replace (rounds d i t) with 0%nat by lia. reflexivity.
  - cbn [markFrom]. case_bool_decide as Ht.
    + rewrite (rounds_step d i t Hi Ht) in Hfuel |- *.
      rewrite IH by lia.
      cbn [seq List.map flat_map]. f_equal.
      * f_equal. lia.
      * rewrite <- seq_shift, List.map_map. f_equal.
        apply List.map_ext. intros k. lia.
    + rewrite rounds_done by lia. reflexivity.
Qed.

Lemma intervals_cases d :
  (intervals d = (1, 5) /\ d <= 60) \/
  (intervals d = (5, 30) /\ 60 < d <= 300) \/
  (intervals d = (30, 300) /\ 300 < d <= 1800) \/
  (intervals d = (60, 600) /\ 1800 < d).
Proof.
  unfold intervals. repeat case_bool_decide; cbn [andb]; try lia;
    first [ left; split; [reflexivity|lia]
          | right; left; split; [reflexivity|lia]
          | right; right; left; split; [reflexivity|lia]
          | right; right; right; split; [reflexivity|lia] ].
Qed.

Lemma intervals_positive d : 0 < fst (intervals d) /\ 0 < snd (intervals d).
Proof.
  destruct (intervals_cases d) as [[-> _]|[[-> _]|[[-> _]|[-> _]]]]; simpl; lia.
Qed.

(** The trace of [createTimeMarkings] as one round per multiple of the
    interval. *)
Lemma createTimeMarkings_rounds d :
  0 < d ->
  createTimeMarkings true (Int d) =
  ClearMarkings ::
  flat_map (mark d (snd (intervals d)))
    (List.map (fun k => Z.of_nat k * fst (intervals d))
       (seq 0 (S (Z.to_nat (d / fst (intervals d)))))).
Proof.
  intros Hd. unfold createTimeMarkings. cbn [negb orb].
  case_bool_decide; [lia|].
  destruct (intervals_positive d) as [Hi HM].
  destruct (intervals d) as [i M]. cbn [fst snd] in *.
  assert (Hr : rounds d i 0 = S (Z.to_nat (d / i))).
  { unfold rounds. rewrite Z.sub_0_r.
    pose proof (Z.div_pos d i ltac:(lia) Hi).
    rewrite <- Z2Nat.inj_succ by lia. f_equal; lia. }
  rewrite markFrom_rounds.
  - rewrite Hr. reflexivity.
  - exact Hi.
  - rewrite Hr. apply le_n_S.
    apply Z2Nat.inj_le; try lia.
    + apply Z.div_pos; lia.
    + apply Z.div_le_upper_bound; nia.
Qed.

Lemma multiples_in d i t :
  0 < i -> 0 <= d ->
  In t (List.map (fun k => Z.of_nat k * i) (seq 0 (S (Z.to_nat (d / i))))) <->
  0 <= t <= d /\ Z.rem t i = 0.
Proof.
  intros Hi Hd. rewrite List.in_map_iff. split.
  - intros (k & <- & Hk%in_seq).
    pose proof (Z.div_pos d i Hd Hi) as Hq.
    pose proof (Z.mul_div_le d i Hi) as Hle.
    assert (Z.of_nat k <= d / i) by lia.
    split; [nia|]. apply Z.rem_mul. lia.
  - intros ([Ht0 Htd] & Hrem).
    rewrite Z.rem_mod_nonneg in Hrem by lia.
    pose proof (Z.div_mod t i ltac:(lia)) as Hdm. rewrite Hrem in Hdm.
    pose proof (Z.div_pos t i Ht0 Hi) as Hq.
    pose proof (Z.div_le_mono t d i Hi Htd) as Hmono.
    exists (Z.to_nat (t / i)). split.
    + rewrite Z2Nat.id by lia. lia.
    + apply in_seq. lia.
Qed.

Lemma markedTimes_rounds d M l :
  List.Forall (fun t => t <= d) l ->
  markedTimes (flat_map (mark d M) l) = l.
Proof.
  induction 1 as [|t l Ht _ IH]; [reflexivity|].
  cbn [flat_map]. unfold markedTimes in *. rewrite flat_map_app, IH.
  unfold mark. case_bool_decide; [lia|].
  destruct (bool_decide (Z.rem t M = 0)); reflexivity.
Qed.

Lemma labels_rounds d M l t txt :
  In (t, txt) (labels (flat_map (mark d M) l)) <->
  In t l /\ t <= d /\ Z.rem t M = 0 /\ txt = TimerModule.formatTime (Int t).
Proof.
  induction l as [|t0 l IH].
  - simpl. tauto.
  - cbn [flat_map]. unfold labels in *. rewrite flat_map_app, in_app_iff, IH.
    cbn [In]. unfold mark.
    case_bool_decide as Hover; [|case_bool_decide as Hmajor]; cbn.
    + split; [tauto|]. intros [[<-|?] ?]; [lia|tauto].
    + split.
      * intros [[[=<- <-]|[]]|?]; [|tauto]. repeat split; auto; lia.
      * intros [[<-|?] (? & ? & ->)]; tauto.
    + split; [tauto|]. intros [[<-|?] (? & ? & ->)]; [contradiction|tauto].
Qed.

(** X18 ([TimerModule.createTimeMarkings], the markings).  For a duration
    of [d > 0] whole seconds the loop ends by its own test and marks every
    multiple of the interval from 0 up to [d], in ascending order and once
    each.  A video of at most half an hour gets at most 61 markings; a
    longer one gets one per minute, without a bound. *)
Theorem createTimeMarkings_marks_multiples (d : Z) :
  0 < d ->
  let interval := fst (intervals d) in
  let marked := markedTimes (createTimeMarkings true (Int d)) in
  marked = List.map (fun k => Z.of_nat k * interval)
             (seq 0 (S (Z.to_nat (d / interval)))) /\
  (d <= 1800 -> (length marked <= 61)%nat) /\
  (1800 < d -> length marked = S (Z.to_nat (d / 60))).
Proof.
  intros Hd interval marked.
  assert (Hm : marked = List.map (fun k => Z.of_nat k * interval)
                          (seq 0 (S (Z.to_nat (d / interval))))).
  { subst marked. rewrite createTimeMarkings_rounds by exact Hd.
    change (markedTimes (ClearMarkings :: ?l)) with (markedTimes l).
    apply markedTimes_rounds. apply List.Forall_forall. intros t Ht.
    apply multiples_in in Ht; [lia| |lia].
    apply intervals_positive. }
  split; [exact Hm|].
  rewrite Hm, length_map, length_seq. subst interval.
  destruct (intervals_cases d) as [[-> H]|[[-> H]|[[-> H]|[-> H]]]];
    cbn [fst]; split; intros; try lia; apply le_n_S.
  - rewrite Z.div_1_r. lia.
  - assert (d / 5 <= 60) by (apply Z.div_le_upper_bound; lia). lia.
  - assert (d / 30 <= 60) by (apply Z.div_le_upper_bound; lia). lia.
Qed.

Lemma createTimeMarkings_marks_multiples_witness :
  markedTimes (createTimeMarkings true (Int 95)) =
  List.map (fun k => Z.of_nat k * 5) (seq 0 20).
Proof.
  apply (createTimeMarkings_marks_multiples 95). lia.
Defined.

(** X19 ([TimerModule.createTimeMarkings], the labels).  For a duration of
    [d > 0] whole seconds a label is appended exactly for the multiples of
    the major interval from 0 up to [d]; its text is [formatTime] of that
    time, and [parseTime] reads the text back as the time the label stands
    for. *)
Theorem createTimeMarkings_labels (d t : Z) (txt : jsstring) :
  0 < d ->
  (In (t, txt) (labels (createTimeMarkings true (Int d))) <->
   0 <= t <= d /\ Z.rem t (snd (intervals d)) = 0 /\
   txt = TimerModule.formatTime (Int t)) /\
  (In (t, txt) (labels (createTimeMarkings true (Int d))) ->
   TimerModule.parseTime txt = Int t).
Proof.
  intros Hd.
  destruct (intervals_positive d) as [Hi HM].
  assert (Hiff : In (t, txt) (labels (createTimeMarkings true (Int d))) <->
                 0 <= t <= d /\ Z.rem t (snd (intervals d)) = 0 /\
                 txt = TimerModule.formatTime (Int t)).
  { rewrite createTimeMarkings_rounds by exact Hd.
    change (labels (ClearMarkings :: ?l)) with (labels l).
    rewrite labels_rounds, multiples_in by lia.
    split; [tauto|]. intros ([Ht0 Htd] & Hrem & Htxt).
    repeat split; auto.
    destruct (intervals_cases d) as [[E _]|[[E _]|[[E _]|[E _]]]];
      rewrite E in *; cbn [fst snd] in *;
      rewrite Z.rem_mod_nonneg in * by lia;
      apply Z.mod_divide in Hrem; try lia; destruct Hrem as [q ->];
      [ replace (q * 5) with (q * 5 * 1) by lia
      | replace (q * 30) with (q * 6 * 5) by lia
      | replace (q * 300) with (q * 10 * 30) by lia
      | replace (q * 600) with (q * 10 * 60) by lia ];
      apply Z.mod_mul; lia. }
  split; [exact Hiff|].
  intros (Ht & _ & ->)%Hiff.
  rewrite <- (Z2N.id t) by lia.
  exact (roundtrip_guarded (Z.to_N t)).
Qed.

Lemma createTimeMarkings_labels_witness :
  TimerModule.parseTime (lit "00:01:30") = Int 90.
Proof.
  refine (proj2 (createTimeMarkings_labels 95 90 (lit "00:01:30") _) _).
  - lia.
  - apply (proj2 (proj1 (createTimeMarkings_labels 95 90 (lit "00:01:30")
                           ltac:(lia)))).
    repeat split; try lia; reflexivity.
Defined.

Lemma createTimeMarkings_no_width tm dur w :
  ~ In (SetTrackWidth w) (createTimeMarkings tm dur).
Proof.
  unfold createTimeMarkings. destruct dur as [|d]; [tauto|].
  destruct (negb tm || bool_decide (d = 0)); [tauto|].
  destruct (intervals d) as [i M].
  intros [H|H]; [discriminate|]. revert H.
  generalize (S (Z.to_nat d)) 0. intros fuel.
  induction fuel as [|fuel IH]; intros t; cbn [markFrom]; [tauto|].
  case_bool_decide; [|tauto].
  rewrite in_app_iff. intros [Hm|Hm]; [|exact (IH _ Hm)].
  unfold mark in Hm. case_bool_decide; [tauto|].
  destruct (bool_decide (Z.rem t M = 0)); cbn in Hm; intuition discriminate.
Qed.

Lemma press_inRange b z : z = None \/ inRange z -> inRange (press b z).
Proof.
  intros [->|H].
  - destruct b; simpl; lia.
  - destruct z as [h|]; [|contradiction]. simpl in H.
    destruct b; unfold press, orOne; case_bool_decide; simpl; lia.
Qed.

Lemma presses_inRange bs : forall z, inRange z -> inRange (presses bs z).
Proof.
  induction bs as [|b bs IH]; intros z Hz; [exact Hz|].
  apply IH, press_inRange. now right.
Qed.

(** X20 (the zoom buttons of the timer module).  Starting from an unset
    level or from a level between 1 and 5, after any number of clicks on
    the two buttons (at least one) the level is between 1 and 5, and every
    width the last click gives to a track is a whole percentage between
    100% and 500% in steps of 50.  Eight clicks on the zoom-in button
    reach 5 from anywhere, eight clicks on the zoom-out button reach 1. *)
Theorem zoom_stays_in_range (p : page) (bs : list button) (b : button)
    (z : zoomLevel) :
  z = None \/ inRange z ->
  inRange (presses (bs ++ [b]) z) /\
  fst (click p b (presses bs z)) = presses (bs ++ [b]) z /\
  (forall w, In (SetTrackWidth w) (snd (click p b (presses bs z))) ->
     exists n, 100 <= n <= 500 /\ Z.rem n 50 = 0 /\
               w = toString (Int n) ++ lit "%") /\
  presses (repeat ZoomIn 8) z = Some 10 /\
  presses (repeat ZoomOut 8) z = Some 2.
Proof.
  intros Hz.
  assert (Hlast : presses (bs ++ [b]) z = press b (presses bs z)).
  { unfold presses. rewrite fold_left_app. reflexivity. }
  assert (Hin : inRange (presses (bs ++ [b]) z)).
  { destruct bs as [|b0 bs].
    - apply press_inRange, Hz.
    - change (inRange (presses (bs ++ [b]) (press b0 z))).
      apply presses_inRange. apply (press_inRange b0 z Hz). }
  split; [exact Hin|]. split; [symmetry; exact Hlast|]. split.
  - intros w Hw. cbn [click snd] in Hw. unfold updateTimelineZoom in Hw.
    rewrite !in_app_iff in Hw. destruct Hw as [Hw|[Hw|Hw]].
    + exfalso. exact (createTimeMarkings_no_width _ _ _ Hw).
    + cbn in Hw. intuition discriminate.
    + destruct (videoTrack p || audioTrack p); [|contradiction].
      apply repeat_spec in Hw. injection Hw as ->.
      rewrite <- Hlast.
      destruct (presses (bs ++ [b]) z) as [h|]; [|contradiction].
      simpl in Hin. unfold orOne. case_bool_decide; [lia|].
      exists (50 * h). split; [lia|]. split; [|reflexivity].
      rewrite Z.mul_comm. apply Z.rem_mul. lia.
  - destruct Hz as [->|Hz]; [split; reflexivity|].
    destruct z as [h|]; [|contradiction]. simpl in Hz.
    assert (Hh : h = 2 \/ h = 3 \/ h = 4 \/ h = 5 \/ h = 6 \/ h = 7 \/
                 h = 8 \/ h = 9 \/ h = 10) by lia.
    repeat (destruct Hh as [->|Hh]; [split; reflexivity|]).
    subst h. split; reflexivity.
Qed.

End TimelineProperties.

Section TimelineInstances.
Import JS TimerTimeline.
Local Open Scope Z_scope.

Lemma zoom_stays_in_range_witness :
  inRange (presses ([ZoomIn; ZoomIn; ZoomOut] ++ [ZoomIn]) None).
Proof.
  refine (proj1 (zoom_stays_in_range
    {| timeMarkings := true; videoDuration := Int 95; videoTrack := true;
       audioTrack := false; trackContents := 2 |}
    [ZoomIn; ZoomIn; ZoomOut] ZoomIn None _)).
  left. reflexivity.
Defined.

End TimelineInstances.
